(** * Content moderation engine: AVL dictionary, KMP matcher, trust graph,
      scoring policy and review queue.

    Shallow embedding of [practice/content_moderation_system.cpp].

    Conventions of the embedding.
    - A [std::string] is a [list ascii] (one [ascii] per [char]); strings are
      ordered as [std::string::operator<] orders them: lexicographically on
      the characters read as unsigned bytes, a proper prefix being smaller.
    - A null [AVLNode*] is [Null]; the tree is exclusively owned, so the
      in-place updates of [insertAVL] and of the rotations are rendered as
      functions returning the updated tree.  Dereferencing a null pointer has
      no defined result: the functions doing so return [None].
    - [int] values are heights, indices, container sizes and additive scores.
      They are rendered as unbounded [Z] (indices as [nat]): every one of them
      is bounded by the size of a container held in memory.
    - [while] loops whose termination is not structural take a [fuel]
      argument; running out of fuel is [None], and the theorems show that a
      stated amount of fuel always suffices.
    - [map<string, _>] is a [gmap]; [operator[]] on a missing key inserts the
      default value, which the model of [Graph::degree] makes explicit. *)

From Stdlib Require Import ZArith Lia List Sorted Permutation.
From Stdlib Require Import Strings.Ascii.
From stdpp Require Import gmap strings list fin_maps sorting.
Import ListNotations.

Open Scope Z_scope.

Abbreviation str := (list ascii).

(** ** Strings *)

Module Str.

Definition char_compare (a b : ascii) : comparison :=
  N.compare (N_of_ascii a) (N_of_ascii b).

(** [std::string::compare]: first difference decides, then the lengths. *)
Fixpoint compare (a b : str) : comparison :=
  match a, b with
  | [], [] => Eq
  | [], _ :: _ => Lt
  | _ :: _, [] => Gt
  | x :: a', y :: b' =>
      match char_compare x y with
      | Eq => compare a' b'
      | c => c
      end
  end.

(** [a < b] on [std::string]. *)
Definition ltb (a b : str) : bool :=
  match compare a b with Lt => true | _ => false end.

(** [a > b] is [b < a]. *)
Definition gtb (a b : str) : bool := ltb b a.

(** [a == b]. *)
Definition eqb (a b : str) : bool := bool_decide (a = b).

Definition lt (a b : str) : Prop := ltb a b = true.

Definition of_string (s : string) : str := String.list_ascii_of_string s.

End Str.

(** ** AVL tree of banned words *)

Inductive AVLNode : Type :=
| Null
| Node (key : str) (left right : AVLNode) (height : Z).

Definition getHeight (node : AVLNode) : Z :=
  match node with
  | Null => 0
  | Node _ _ _ h => h
  end.

Definition getBalance (node : AVLNode) : Z :=
  match node with
  | Null => 0
  | Node _ l r _ => getHeight l - getHeight r
  end.

(** [node->key]; no result on a null pointer. *)
Definition key_of (node : AVLNode) : option str :=
  match node with
  | Null => None
  | Node k _ _ _ => Some k
  end.

Definition rightRotate (y : AVLNode) : option AVLNode :=
  match y with
  | Node yk (Node xk xl T2 _) yr _ =>
      let y' := Node yk T2 yr (Z.max (getHeight T2) (getHeight yr) + 1) in
      Some (Node xk xl y' (Z.max (getHeight xl) (getHeight y') + 1))
  | _ => None
  end.

Definition leftRotate (x : AVLNode) : option AVLNode :=
  match x with
  | Node xk xl (Node yk T2 yr _) _ =>
      let x' := Node xk xl T2 (Z.max (getHeight xl) (getHeight T2) + 1) in
      Some (Node yk x' yr (Z.max (getHeight x') (getHeight yr) + 1))
  | _ => None
  end.

(** Steps 2 to 4 of [insertAVL], run on the node whose child has just been
    replaced.  The four tests are evaluated in the order of the source, each
    with the short-circuit of [&&]: the child's key is read only when the
    balance test has passed. *)
Definition rebalance (key k : str) (l r : AVLNode) : option AVLNode :=
  let node := Node k l r (1 + Z.max (getHeight l) (getHeight r)) in
  let balance := getBalance node in
  c1 ← (if balance >? 1 then lk ← key_of l; Some (Str.ltb key lk) else Some false);
  if c1 : bool then rightRotate node else
  c2 ← (if balance <? -1 then rk ← key_of r; Some (Str.gtb key rk) else Some false);
  if c2 : bool then leftRotate node else
  c3 ← (if balance >? 1 then lk ← key_of l; Some (Str.gtb key lk) else Some false);
  if c3 : bool then
    l' ← leftRotate l;
    rightRotate (Node k l' r (1 + Z.max (getHeight l) (getHeight r)))
  else
  c4 ← (if balance <? -1 then rk ← key_of r; Some (Str.ltb key rk) else Some false);
  if c4 : bool then
    r' ← rightRotate r;
    leftRotate (Node k l r' (1 + Z.max (getHeight l) (getHeight r)))
  else Some node.

Fixpoint insertAVL (node : AVLNode) (key : str) : option AVLNode :=
  match node with
  | Null => Some (Node key Null Null 1)
  | Node k l r h =>
      if Str.ltb key k then
        l' ← insertAVL l key; rebalance key k l' r
      else if Str.gtb key k then
        r' ← insertAVL r key; rebalance key k l r'
      else Some node
  end.

Fixpoint searchAVL (node : AVLNode) (key : str) : bool :=
  match node with
  | Null => false
  | Node k l r _ =>
      if Str.eqb key k then true
      else if Str.ltb key k then searchAVL l key else searchAVL r key
  end.

(** The loop of [main] that builds the dictionary from a word list. *)
Definition build_from (t : AVLNode) (words : list str) : option AVLNode :=
  foldl (fun acc w => t ← acc; insertAVL t w) (Some t) words.

Definition build (words : list str) : option AVLNode := build_from Null words.

Fixpoint inorder (t : AVLNode) : list str :=
  match t with
  | Null => []
  | Node k l r _ => inorder l ++ k :: inorder r
  end.

(** Height of the tree as a shape, independent of the stored fields. *)
Fixpoint tree_height (t : AVLNode) : nat :=
  match t with
  | Null => 0%nat
  | Node _ l r _ => S (Nat.max (tree_height l) (tree_height r))
  end.

(** ** Trust graph *)

(** [std::map::operator[]]: a missing key is inserted with the default value
    before the reference to its value is returned. *)
Definition subscript {V : Type} (d : V) (m : gmap str V) (k : str)
  : V * gmap str V :=
  match m !! k with
  | Some v => (v, m)
  | None => (d, <[k := d]> m)
  end.

Record Graph : Type := mkGraph { adj : gmap str (list str) }.

Definition emptyGraph : Graph := mkGraph ∅.

(** [adj[u].push_back(v)]. *)
Definition push_back_at (m : gmap str (list str)) (u v : str)
  : gmap str (list str) :=
  let '(vec, m') := subscript [] m u in <[u := vec ++ [v]]> m'.

Definition addEdge (g : Graph) (u v : str) : Graph :=
  let m1 := push_back_at (adj g) u v in
  let m2 := push_back_at m1 v u in
  mkGraph m2.

(** [degree] is not [const]: it returns the size of [adj[u]] together with the
    graph as [operator[]] leaves it. *)
Definition degree (g : Graph) (u : str) : Z * Graph :=
  let '(vec, m') := subscript [] (adj g) u in
  (Z.of_nat (length vec), mkGraph m').

(** ** Flagged posts and priorities *)

Record FlaggedPost : Type := mkFlaggedPost {
  username : str;
  content : str;
  severity : Z;
  priority : str;
  isBot : bool;
  reputation : Z
}.

Definition getPriority (score : Z) : str :=
  if score >=? 6 then Str.of_string "HIGH"
  else if score >=? 3 then Str.of_string "MEDIUM"
  else Str.of_string "LOW".

(** ** KMP pattern matching *)

Module KMPStringMatcher.

(** [s[i]] on a [const std::string&]: the character at [i], the terminating
    null character at [i = s.size()], undefined beyond. *)
Definition at_ (s : str) (i : nat) : option ascii :=
  match s !! i with
  | Some c => Some c
  | None => if (i =? length s)%nat then Some "000"%char else None
  end.

(** [v[i] = x] on a vector: undefined out of range. *)
Definition store (v : list nat) (i x : nat) : option (list nat) :=
  if (i <? length v)%nat then Some (<[i := x]> v) else None.

(** The [while] loop of [computeLPS]. *)
Fixpoint lps_loop (fuel : nat) (pattern : str) (m : nat)
    (lps : list nat) (len i : nat) : option (list nat) :=
  match fuel with
  | O => None
  | S fuel =>
      if (i <? m)%nat then
        pi ← at_ pattern i;
        pl ← at_ pattern len;
        if bool_decide (pi = pl) then
          let len := (len + 1)%nat in
          lps ← store lps i len;
          lps_loop fuel pattern m lps len (i + 1)%nat
        else if negb (len =? 0)%nat then
          len ← lps !! (len - 1)%nat;
          lps_loop fuel pattern m lps len i
        else
          lps ← store lps i 0%nat;
          lps_loop fuel pattern m lps len (i + 1)%nat
      else Some lps
  end.

Definition computeLPS (fuel : nat) (pattern : str) : option (list nat) :=
  let m := length pattern in
  lps_loop fuel pattern m (replicate m 0%nat) 0 1.

(** The [while] loop of [findPatternOccurrences]. *)
Fixpoint match_loop (fuel : nat) (text pattern : str) (n m : nat)
    (lps : list nat) (occurrences : list Z) (i j : nat) : option (list Z) :=
  match fuel with
  | O => None
  | S fuel =>
      if (i <? n)%nat then
        pj ← at_ pattern j;
        ti ← at_ text i;
        let '(i, j) :=
          if bool_decide (pj = ti) then ((i + 1)%nat, (j + 1)%nat) else (i, j) in
        if (j =? m)%nat then
          let occurrences := occurrences ++ [Z.of_nat i - Z.of_nat j] in
          j ← lps !! (j - 1)%nat;
          match_loop fuel text pattern n m lps occurrences i j
        else
          mismatch ←
            (if (i <? n)%nat then
               pj ← at_ pattern j;
               ti ← at_ text i;
               Some (negb (bool_decide (pj = ti)))
             else Some false);
          if mismatch : bool then
            if negb (j =? 0)%nat then
              j ← lps !! (j - 1)%nat;
              match_loop fuel text pattern n m lps occurrences i j
            else match_loop fuel text pattern n m lps occurrences (i + 1)%nat j
          else match_loop fuel text pattern n m lps occurrences i j
      else Some occurrences
  end.

Definition findPatternOccurrences (fuel : nat) (text pattern : str)
  : option (list Z) :=
  let n := length text in
  let m := length pattern in
  if (m =? 0)%nat then Some []
  else
    lps ← computeLPS fuel pattern;
    match_loop fuel text pattern n m lps [] 0 0.

Definition containsPattern (fuel : nat) (text pattern : str) : option bool :=
  occ ← findPatternOccurrences fuel text pattern;
  Some (negb (bool_decide (occ = []))).

End KMPStringMatcher.

(** ** Scoring of one post *)

(** [::tolower] in the "C" locale: the letters 'A' to 'Z' are moved to 'a' to
    'z', every other byte is returned as it is. *)
Definition tolower (c : ascii) : ascii :=
  let n := N_of_ascii c in
  if ((65 <=? n) && (n <=? 90))%N then ascii_of_N (n + 32) else c.

(** [isspace] in the "C" locale, which [operator>>] uses to delimit words. *)
Definition isspace (c : ascii) : bool :=
  let n := N_of_ascii c in
  (((9 <=? n) && (n <=? 13)) || (n =? 32))%N.

Fixpoint skip_ws (s : str) : str :=
  match s with
  | c :: s' => if isspace c then skip_ws s' else s
  | [] => []
  end.

Fixpoint read_word (s : str) : str * str :=
  match s with
  | c :: s' =>
      if isspace c then ([], s)
      else let '(w, rest) := read_word s' in (c :: w, rest)
  | [] => ([], [])
  end.

(** [ss >> word]: skip leading white space, read up to the next white space;
    the extraction fails when no character could be read. *)
Definition extract (ss : str) : option (str * str) :=
  let '(w, rest) := read_word (skip_ws ss) in
  match w with
  | [] => None
  | _ :: _ => Some (w, rest)
  end.

(** What the analysis prints, in the order it prints it. *)
Inductive event : Type :=
| BannedWordDetected (word user : str)
| BannedPhraseDetected (phrase user : str)
| PotentialBotDetected (user : str)
| LowReputationPenalty (user : str)
| PostFlagged (severity : Z).

(** [while (ss >> word)]: one dictionary query per word. *)
Fixpoint word_loop (fuel : nat) (bannedWords : AVLNode) (user ss : str)
    (sev : Z) (out : list event) : option (Z * list event) :=
  match fuel with
  | O => None
  | S fuel =>
      match extract ss with
      | None => Some (sev, out)
      | Some (word, ss) =>
          let word := map tolower word in
          if searchAVL bannedWords word then
            word_loop fuel bannedWords user ss (sev + 1)
              (out ++ [BannedWordDetected word user])
          else word_loop fuel bannedWords user ss sev out
      end
  end.

(** [for (const string& phrase : bannedPhrases)]. *)
Fixpoint phrase_loop (fuel : nat) (lowerContent user : str)
    (bannedPhrases : list str) (sev : Z) (out : list event)
  : option (Z * list event) :=
  match bannedPhrases with
  | [] => Some (sev, out)
  | phrase :: rest =>
      hit ← KMPStringMatcher.containsPattern fuel lowerContent phrase;
      if hit : bool then
        phrase_loop fuel lowerContent user rest (sev + 2)
          (out ++ [BannedPhraseDetected phrase user])
      else phrase_loop fuel lowerContent user rest sev out
  end.

(** [userReputation.count(user) ? userReputation[user] : 0]: the subscript is
    evaluated only on a present key, so the table is left as it is. *)
Definition reputation_of (userReputation : gmap str Z) (user : str) : Z :=
  match userReputation !! user with
  | Some _ => (subscript 0 userReputation user).1
  | None => 0
  end.

Record analysis : Type := mkAnalysis {
  an_severity : Z;
  an_flagged : option FlaggedPost;
  an_graph : Graph;
  an_output : list event
}.

(** [if (severity > 0)]: the post is flagged, with the priority of its
    severity; otherwise nothing is built and nothing is printed. *)
Definition flag_step (user content : str) (sev : Z) (isBot : bool) (rep : Z)
    (out : list event) : option FlaggedPost * list event :=
  if sev >? 0 then
    let fp := mkFlaggedPost user content sev (getPriority sev) isBot rep in
    (Some fp, out ++ [PostFlagged sev])
  else (None, out).

(** The body of the loop over the posts, up to the push into the queue. *)
Definition analyze_post (fuel : nat) (bannedWords : AVLNode)
    (bannedPhrases : list str) (userReputation : gmap str Z)
    (socialGraph : Graph) (post : str * str) : option analysis :=
  let user := post.1 in
  let content := post.2 in
  let sev := 0 in
  '(sev, out) ← word_loop fuel bannedWords user content sev [];
  let lowerContent := map tolower content in
  '(sev, out) ← phrase_loop fuel lowerContent user bannedPhrases sev out;
  let rep := reputation_of userReputation user in
  let '(deg, socialGraph) := degree socialGraph user in
  let isBot := deg =? 0 in
  let '(sev, out) :=
    if isBot then (sev + 2, out ++ [PotentialBotDetected user]) else (sev, out) in
  let '(sev, out) :=
    if rep <? 5 then (sev + 1, out ++ [LowReputationPenalty user]) else (sev, out) in
  let '(flagged, out) := flag_step user content sev isBot rep out in
  Some (mkAnalysis sev flagged socialGraph out).

(** ** Review queue *)

Abbreviation entry := (Z * FlaggedPost)%type.

(** [std::priority_queue] is the library's.  It is modelled by what the C++
    standard requires of it: the adaptor keeps a vector that is a heap for
    the comparison, [push] and [pop] leave a heap with the elements they
    should hold and [top] is the front of the vector.  How ties are laid out
    is left open, so [push] and [pop] are relations. *)

Section ReviewQueue.

(** [FlaggedPost] declares no [operator<]; the comparison that
    [std::pair]'s [operator<] applies to the second components is a
    parameter of the model. *)
Variable post_lt : FlaggedPost → FlaggedPost → bool.

(** [operator<] of [std::pair<int, FlaggedPost>]. *)
Definition pair_lt (a b : entry) : bool :=
  (a.1 <? b.1) || (negb (b.1 <? a.1) && post_lt a.2 b.2).

(** The underlying vector of a [std::priority_queue] is a heap for
    [std::less]: no element is smaller than its child. *)
Definition is_heap (c : list entry) : Prop :=
  ∀ (i : nat) (x p : entry),
    (0 < i)%nat → c !! i = Some x → c !! ((i - 1) / 2)%nat = Some p →
    pair_lt p x = false.

(** [push]: [push_back] then [push_heap], which leaves a heap holding the
    elements it received. *)
Definition pq_push (x : entry) (c c' : list entry) : Prop :=
  is_heap c' ∧ c' ≡ₚ c ++ [x].

(** [top]: the front of the vector. *)
Definition pq_top (c : list entry) : option entry := head c.

(** [pop]: [pop_heap] moves the front to the back and leaves a heap before
    it; [pop_back] then removes it. *)
Definition pq_pop (c c' : list entry) : Prop :=
  ∃ x rest, c = x :: rest ∧ is_heap c' ∧ c' ≡ₚ rest.

(** The queue after the pushes of a run, in the order they were made. *)
Inductive pushed : list entry → list entry → Prop :=
| pushed_nil : pushed [] []
| pushed_snoc xs x c c' : pushed xs c → pq_push x c c' → pushed (xs ++ [x]) c'.

(** [while (!flaggedQueue.empty())]: report the top, pop it. *)
Inductive drain : list entry → list entry → Prop :=
| drain_empty : drain [] []
| drain_pop c x c' out :
    pq_top c = Some x → pq_pop c c' → drain c' out → drain c (x :: out).

(** One executable queue meeting the contract: the vector kept sorted. *)
Fixpoint insert_desc (x : entry) (c : list entry) : list entry :=
  match c with
  | [] => [x]
  | y :: c' => if pair_lt y x then x :: c else y :: insert_desc x c'
  end.

Definition sort_desc (c : list entry) : list entry :=
  foldr insert_desc [] c.

Definition ref_push (x : entry) (c : list entry) : list entry :=
  sort_desc (c ++ [x]).

Definition ref_pop (c : list entry) : list entry := sort_desc (tail c).

Fixpoint ref_drain (fuel : nat) (c : list entry) : list entry :=
  match fuel, pq_top c with
  | S fuel, Some x => x :: ref_drain fuel (ref_pop c)
  | _, _ => []
  end.

End ReviewQueue.

(** The step of [main] that files an analysed post: only a post with a
    positive severity is pushed. *)
Definition file_post (post_lt : FlaggedPost → FlaggedPost → bool)
    (a : analysis) (q q' : list entry) : Prop :=
  match an_flagged a with
  | Some fp => pq_push post_lt (an_severity a, fp) q q'
  | None => q' = q
  end.

(** ** The scenario of [main] *)

Definition demo_words : list str :=
  map Str.of_string ["spam"; "fake"; "scam"; "hate"].

Definition demo_phrases : list str :=
  map Str.of_string ["click here"; "free money"; "urgent action"; "limited time"].

Definition demo_reputation : gmap str Z :=
  <[Str.of_string "charlie" := 5]>
    (<[Str.of_string "bob" := 3]> (<[Str.of_string "alice" := 10]> ∅)).

Definition demo_graph : Graph :=
  addEdge (addEdge emptyGraph (Str.of_string "alice") (Str.of_string "bob"))
    (Str.of_string "bob") (Str.of_string "charlie").

Definition demo_posts : list (str * str) :=
  [ (Str.of_string "alice", Str.of_string "this is a great product");
    (Str.of_string "bob", Str.of_string "this is a scam");
    (Str.of_string "botuser", Str.of_string "check out this link");
    (Str.of_string "charlie", Str.of_string "I hate this") ].

(** ** Specification-side notions for the trust graph *)

(** The adjacency list of a user, empty when the map has no entry. *)
Definition neighbours (g : Graph) (u : str) : list str :=
  default [] (adj g !! u).

(** The calls that act on a graph. *)
Inductive graph_op : Type :=
| AddEdge (u v : str)
| Degree (u : str).

Definition run_op (g : Graph) (op : graph_op) : Graph :=
  match op with
  | AddEdge u v => addEdge g u v
  | Degree u => (degree g u).2
  end.

Definition run_ops (ops : list graph_op) : Graph := foldl run_op emptyGraph ops.

(** [u] is an argument of an [addEdge] call. *)
Definition mentions (u : str) (op : graph_op) : Prop :=
  match op with
  | AddEdge a b => u = a ∨ u = b
  | Degree _ => False
  end.

(** The claim on [addEdge] as the specification words it, at one call. *)
Definition addEdge_adds_one_each (g : Graph) (a b : str) : Prop :=
  (degree (addEdge g a b) a).1 = (degree g a).1 + 1
  ∧ (degree (addEdge g a b) b).1 = (degree g b).1 + 1
  ∧ ∀ w, w ≠ a → w ≠ b → (degree (addEdge g a b) w).1 = (degree g w).1.

Definition rotation_sample : AVLNode :=
  Node (Str.of_string "m")
    (Node (Str.of_string "f") (Node (Str.of_string "a") Null Null 1) Null 2)
    (Node (Str.of_string "t") Null (Node (Str.of_string "z") Null Null 1) 2) 3.

(** ** Specification-side notions for the pattern matcher *)

(** The substring of [text] of the length of [pattern] that begins at [i]
    is [pattern]. *)
Definition occurs_at (text pattern : str) (i : nat) : Prop :=
  (i + length pattern ≤ length text)%nat
  ∧ take (length pattern) (drop i text) = pattern.

Global Instance occurs_at_dec text pattern i : Decision (occurs_at text pattern i).
Proof. unfold occurs_at. apply _. Defined.

(** The occurrences that begin before [k], in increasing order. *)
Definition occ_below (text pattern : str) (k : nat) : list nat :=
  filter (occurs_at text pattern) (seq 0 k).

(** All occurrences: what a scan that tries each offset in turn collects. *)
Definition occurrences (text pattern : str) : list nat :=
  occ_below text pattern (S (length text)).

(** [s[a .. a+len)] is [p[0 .. len)]. *)
Definition agree (s p : str) (a len : nat) : Prop :=
  ∀ t, (t < len)%nat → s !! (a + t)%nat = p !! t.

(** The prefix of [p] of length [b] is also a suffix of its prefix of
    length [k]. *)
Definition border (p : str) (k b : nat) : Prop :=
  (b ≤ k)%nat ∧ agree p p (k - b) b.

(** [v] is the length of the longest proper border of the prefix of [p] of
    length [k]. *)
Definition is_lps (p : str) (k v : nat) : Prop :=
  (v < k)%nat ∧ border p k v
  ∧ ∀ b, (b < k)%nat → border p k b → (b ≤ v)%nat.

(** The first [k] entries of the failure table are right. *)
Definition lps_table (p : str) (lps : list nat) (k : nat) : Prop :=
  ∀ q, (q < k)%nat → ∃ v, lps !! q = Some v ∧ is_lps p (S q) v.

(** ** Specification-side notions for the scoring *)

(** The maximal runs of characters other than white space, in order; [cur]
    is the run being read. *)
Fixpoint split_ws (s cur : str) : list str :=
  match s with
  | [] => match cur with [] => [] | _ :: _ => [cur] end
  | c :: s' =>
      if isspace c then
        match cur with
        | [] => split_ws s' []
        | _ :: _ => cur :: split_ws s' []
        end
      else split_ws s' (cur ++ [c])
  end.

Definition tokens (s : str) : list str := split_ws s [].

(** A phrase occurs in a text; as for the matcher, the empty phrase does
    not. *)
Definition occurs_in (text phrase : str) : Prop :=
  phrase ≠ [] ∧ ∃ i, occurs_at text phrase i.

(** The tokens of the content that the dictionary holds once lower-cased. *)
Definition word_hits (words : list str) (content : str) : list str :=
  filter (λ w, w ∈ words) (map (map tolower) (tokens content)).

(** The phrases that occur in the lower-cased content. *)
Definition phrase_hits (phrases : list str) (content : str) : list str :=
  filter (λ ph, ph ≠ [] ∧ occurrences (map tolower content) ph ≠ []) phrases.

Definition bot_penalty (g : Graph) (user : str) : Z :=
  if decide ((degree g user).1 = 0) then 2 else 0.

Definition reputation_penalty (userReputation : gmap str Z) (user : str) : Z :=
  if decide (default 0 (userReputation !! user) < 5) then 1 else 0.

(** The severity as the specification adds it up. *)
Definition severity_sum (words phrases : list str)
    (userReputation : gmap str Z) (g : Graph) (user content : str) : Z :=
  1 * Z.of_nat (length (word_hits words content))
  + 2 * Z.of_nat (length (phrase_hits phrases content))
  + bot_penalty g user
  + reputation_penalty userReputation user.

(** What the analysis prints before the flagging message, in order. *)
Definition signal_events (words phrases : list str)
    (userReputation : gmap str Z) (g : Graph) (user content : str)
  : list event :=
  map (λ w, BannedWordDetected w user) (word_hits words content)
  ++ map (λ ph, BannedPhraseDetected ph user) (phrase_hits phrases content)
  ++ (if decide ((degree g user).1 = 0) then [PotentialBotDetected user] else [])
  ++ (if decide (default 0 (userReputation !! user) < 5)
      then [LowReputationPenalty user] else []).

(** ** Specification-side notions for the review queue *)

(** What [std::priority_queue] requires of [operator<]: a strict weak
    order. *)
Definition strict_weak (post_lt : FlaggedPost → FlaggedPost → bool) : Prop :=
  (∀ a b, post_lt a b = true → post_lt b a = false)
  ∧ (∀ a b c, post_lt a b = false → post_lt b c = false → post_lt a c = false).

(** The queue that [ref_push] builds from the pushes of a run. *)
Definition ref_pushes (post_lt : FlaggedPost → FlaggedPost → bool)
    (xs : list entry) : list entry :=
  foldl (λ c x, ref_push post_lt x c) [] xs.

(** A comparison of posts under which no post is smaller than another. *)
Definition no_tie_break (a b : FlaggedPost) : bool := false.

(** The entries that the scenario of [main] pushes. *)
Definition demo_entries : list entry :=
  [ (2, mkFlaggedPost (Str.of_string "bob") (Str.of_string "this is a scam")
          2 (Str.of_string "LOW") false 3);
    (3, mkFlaggedPost (Str.of_string "botuser")
          (Str.of_string "check out this link")
          3 (Str.of_string "MEDIUM") true 0);
    (1, mkFlaggedPost (Str.of_string "charlie") (Str.of_string "I hate this")
          1 (Str.of_string "LOW") false 5) ].

(** ** Specification-side notions for the dictionary *)

(** Every node stores [1 + max] of its children's heights and its children's
    heights differ by at most one. *)
Fixpoint avl (t : AVLNode) : Prop :=
  match t with
  | Null => True
  | Node _ l r h =>
      avl l ∧ avl r ∧ h = 1 + Z.max (getHeight l) (getHeight r)
      ∧ -1 ≤ getHeight l - getHeight r ≤ 1
  end.

(** The nodes of a tree, root first. *)
Fixpoint nodes (t : AVLNode) : list AVLNode :=
  match t with
  | Null => []
  | Node _ l r _ => t :: nodes l ++ nodes r
  end.

(** What the claims require of one node. *)
Definition node_ok (n : AVLNode) : Prop :=
  match n with
  | Null => True
  | Node _ l r h =>
      Z.abs (Z.of_nat (tree_height l) - Z.of_nat (tree_height r)) ≤ 1
      ∧ Z.abs (getHeight l - getHeight r) ≤ 1
      ∧ h = 1 + Z.max (getHeight l) (getHeight r)
      ∧ h = Z.of_nat (tree_height n)
  end.

(** The root of a tree that an insertion of [key] made one higher: a single
    node, or a node leaning to the side that received [key]. *)
Definition grew (t : AVLNode) (key : str) : Prop :=
  match t with
  | Null => False
  | Node k l r _ =>
      (getHeight l = 0 ∧ getHeight r = 0)
      ∨ (Str.ltb key k = true ∧ getHeight l = getHeight r + 1)
      ∨ (Str.ltb k key = true ∧ getHeight r = getHeight l + 1)
  end.

(** Insertion into a strictly sorted list, keeping one copy of a key. *)
Fixpoint ins_list (key : str) (l : list str) : list str :=
  match l with
  | [] => [key]
  | x :: l' =>
      if Str.ltb key x then key :: l
      else if Str.ltb x key then x :: ins_list key l'
      else l
  end.

Definition sorted (l : list str) : Prop := StronglySorted Str.lt l.

(** ** The loop of [main] over the posts *)

(** [for (auto& post : posts)]: each post is analysed on the graph as the
    analysis of the posts before it left it, and filed into the queue. *)
Inductive run_posts (post_lt : FlaggedPost → FlaggedPost → bool) (fuel : nat)
    (bannedWords : AVLNode) (bannedPhrases : list str)
    (userReputation : gmap str Z) :
    Graph → list entry → list event → list (str * str) →
    Graph → list entry → list event → Prop :=
| run_posts_nil g q out :
    run_posts post_lt fuel bannedWords bannedPhrases userReputation
      g q out [] g q out
| run_posts_cons g q out post posts a q' g_end q_end out_end :
    analyze_post fuel bannedWords bannedPhrases userReputation g post = Some a →
    file_post post_lt a q q' →
    run_posts post_lt fuel bannedWords bannedPhrases userReputation
      (an_graph a) q' (out ++ an_output a) posts g_end q_end out_end →
    run_posts post_lt fuel bannedWords bannedPhrases userReputation
      g q out (post :: posts) g_end q_end out_end.

(** Steps 6 and 7 of [main]: the posts are analysed from an empty queue, then
    the queue is drained and the post of each entry is printed. *)
Definition main_report (post_lt : FlaggedPost → FlaggedPost → bool)
    (fuel : nat) (bannedWords : AVLNode) (bannedPhrases : list str)
    (userReputation : gmap str Z) (socialGraph : Graph)
    (posts : list (str * str)) (report : list FlaggedPost) : Prop :=
  ∃ g q out drained,
    run_posts post_lt fuel bannedWords bannedPhrases userReputation
      socialGraph [] [] posts g q out
    ∧ drain post_lt q drained
    ∧ report = map snd drained.

(** ** Further specification-side notions *)

(** The node stores one plus the larger of its children's stored heights. *)
Definition stores_height (n : AVLNode) : Prop :=
  match n with
  | Null => True
  | Node _ l r h => h = 1 + Z.max (getHeight l) (getHeight r)
  end.

Definition left_child (n : AVLNode) : option AVLNode :=
  match n with
  | Null => None
  | Node _ l _ _ => Some l
  end.

Definition right_child (n : AVLNode) : option AVLNode :=
  match n with
  | Null => None
  | Node _ _ r _ => Some r
  end.

(** What one call appends to the adjacency list of [u]. *)
Definition appended_to (u : str) (op : graph_op) : list str :=
  match op with
  | AddEdge a b =>
      (if decide (a = u) then [b] else []) ++ (if decide (b = u) then [a] else [])
  | Degree _ => []
  end.

Definition is_addEdge (op : graph_op) : bool :=
  match op with
  | AddEdge _ _ => true
  | Degree _ => false
  end.

(** The sum of the degrees of all users of the map. *)
Definition total_degree (g : Graph) : nat :=
  map_fold (λ _ vec acc, (length vec + acc)%nat) 0%nat (adj g).

(** The number of times [v] is listed in [l]. *)
Definition count_of (v : str) (l : list str) : nat :=
  length (filter (λ x, x = v) l).

(** The entry that [main] pushes for a post, if it pushes one, computed from
    the word list and from a graph fixed once and for all. *)
Definition expected_entry (words phrases : list str)
    (userReputation : gmap str Z) (g : Graph) (post : str * str)
  : option entry :=
  let sev := severity_sum words phrases userReputation g post.1 post.2 in
  if decide (0 < sev) then
    Some (sev, mkFlaggedPost post.1 post.2 sev (getPriority sev)
                 (bool_decide ((degree g post.1).1 = 0))
                 (default 0 (userReputation !! post.1)))
  else None.

(** A character that [tolower] changes. *)
Definition is_upper (c : ascii) : Prop := tolower c ≠ c.

(** The fuel covers the loops that the analysis of the post runs. *)
Definition fuel_covers (fuel : nat) (phrases : list str) (post : str * str)
  : Prop :=
  (length post.2 < fuel)%nat
  ∧ ∀ ph, ph ∈ phrases → (2 * (length post.2 + length ph) < fuel)%nat.

(** * Proofs *)

(** ** The order on strings *)

Module StrFacts.

Lemma char_compare_eq a b : Str.char_compare a b = Eq ↔ a = b.
Proof.
  unfold Str.char_compare. rewrite N.compare_eq_iff. split.
  - intros H. rewrite <- (ascii_N_embedding a), <- (ascii_N_embedding b).
    by rewrite H.
  - by intros ->.
Qed.

Lemma char_compare_antisym a b :
  Str.char_compare b a = CompOpp (Str.char_compare a b).
Proof. unfold Str.char_compare. apply N.compare_antisym. Qed.

Lemma char_compare_lt_trans a b c :
  Str.char_compare a b = Lt → Str.char_compare b c = Lt →
  Str.char_compare a c = Lt.
Proof.
  unfold Str.char_compare. rewrite !N.compare_lt_iff. lia.
Qed.

Lemma compare_eq a b : Str.compare a b = Eq ↔ a = b.
Proof.
  revert b. induction a as [|x a IH]; intros [|y b]; simpl; try done.
  destruct (Str.char_compare x y) eqn:E.
  - apply char_compare_eq in E as ->. rewrite IH. split; congruence.
  - split; [done|]. intros [= -> _].
    assert (Str.char_compare y y = Eq) by by apply char_compare_eq.
    congruence.
  - split; [done|]. intros [= -> _].
    assert (Str.char_compare y y = Eq) by by apply char_compare_eq.
    congruence.
Qed.

Lemma compare_antisym a b : Str.compare b a = CompOpp (Str.compare a b).
Proof.
  revert b. induction a as [|x a IH]; intros [|y b]; simpl; try done.
  rewrite (char_compare_antisym x y).
  destruct (Str.char_compare x y); simpl; auto.
Qed.

Lemma compare_lt_trans a b c :
  Str.compare a b = Lt → Str.compare b c = Lt → Str.compare a c = Lt.
Proof.
  revert b c. induction a as [|x a IH]; intros [|y b] [|z c]; simpl; try done.
  destruct (Str.char_compare x y) eqn:Exy; try done;
    destruct (Str.char_compare y z) eqn:Eyz; try done; intros H1 H2.
  - apply char_compare_eq in Exy as ->. rewrite Eyz. eauto.
  - apply char_compare_eq in Exy as ->. by rewrite Eyz.
  - apply char_compare_eq in Eyz as ->. by rewrite Exy.
  - by rewrite (char_compare_lt_trans x y z).
Qed.

Lemma ltb_irrefl a : Str.ltb a a = false.
Proof.
  unfold Str.ltb. by rewrite (proj2 (compare_eq a a) eq_refl).
Qed.

Lemma ltb_trans a b c :
  Str.ltb a b = true → Str.ltb b c = true → Str.ltb a c = true.
Proof.
  unfold Str.ltb. intros H1 H2.
  destruct (Str.compare a b) eqn:E1; try done.
  destruct (Str.compare b c) eqn:E2; try done.
  by rewrite (compare_lt_trans a b c).
Qed.

Lemma ltb_asym a b : Str.ltb a b = true → Str.ltb b a = false.
Proof.
  unfold Str.ltb. rewrite (compare_antisym a b).
  by destruct (Str.compare a b).
Qed.

Lemma ltb_total a b : Str.ltb a b = false → Str.ltb b a = false → a = b.
Proof.
  unfold Str.ltb. rewrite (compare_antisym a b).
  destruct (Str.compare a b) eqn:E; try done.
  intros _ _. by apply compare_eq.
Qed.

Lemma ltb_neq a b : Str.ltb a b = true → a ≠ b.
Proof. intros H ->. by rewrite ltb_irrefl in H. Qed.

Lemma eqb_eq a b : Str.eqb a b = true ↔ a = b.
Proof. unfold Str.eqb. by rewrite bool_decide_eq_true. Qed.

End StrFacts.


(** ** The dictionary: heights and balance *)

Section AVLBalance.

Lemma avl_height_nonneg t : avl t → 0 ≤ getHeight t.
Proof.
  induction t as [|k l IHl r IHr h]; simpl; [lia|].
  intros (Hl & Hr & -> & _). specialize (IHl Hl). specialize (IHr Hr). lia.
Qed.

Lemma avl_height_zero t : avl t → getHeight t = 0 → t = Null.
Proof.
  destruct t as [|k l r h]; simpl; [done|].
  intros (Hl & Hr & -> & _) H.
  pose proof (avl_height_nonneg l Hl). pose proof (avl_height_nonneg r Hr). lia.
Qed.

Lemma avl_tree_height t : avl t → getHeight t = Z.of_nat (tree_height t).
Proof.
  induction t as [|k l IHl r IHr h]; simpl; [done|].
  intros (Hl & Hr & -> & _). rewrite (IHl Hl), (IHr Hr). lia.
Qed.

(** The stored heights stay below the number of keys, far from the range of
    [int]. *)
Lemma avl_height_le_size t :
  avl t → getHeight t ≤ Z.of_nat (length (inorder t)).
Proof.
  induction t as [|k l IHl r IHr h]; simpl; [done|].
  intros (Hl & Hr & -> & _). specialize (IHl Hl). specialize (IHr Hr).
  rewrite length_app. simpl. lia.
Qed.

Lemma avl_nodes t : avl t → Forall node_ok (nodes t).
Proof.
  induction t as [|k l IHl r IHr h]; simpl; [constructor|].
  intros (Hl & Hr & Hh & Hb). constructor.
  - unfold node_ok. rewrite <- (avl_tree_height l Hl), <- (avl_tree_height r Hr).
    repeat split; try lia.
    rewrite <- (avl_tree_height (Node k l r h)); [done|]. by simpl.
  - apply Forall_app. auto.
Qed.

(** A node whose stored height is at least one is not null. *)
Lemma avl_height_pos_node t :
  avl t → 1 ≤ getHeight t → ∃ k l r h, t = Node k l r h.
Proof.
  destruct t as [|k l r h]; simpl; [lia|]. eauto.
Qed.

Ltac avl_heights :=
  repeat match goal with
  | H : avl ?t |- _ =>
      lazymatch goal with
      | _ : 0 ≤ getHeight t |- _ => fail
      | _ => pose proof (avl_height_nonneg t H)
      end
  end.

(** The left-heavy half of [rebalance]. *)
Lemma rebalance_left_heavy key k l r :
  avl l → avl r → getHeight l - getHeight r = 2 → grew l key →
  ∃ t', rebalance key k l r = Some t' ∧ avl t' ∧ getHeight t' = getHeight l.
Proof.
  intros Hl Hr Hb Hg. unfold rebalance. cbn [getBalance].
  destruct l as [|lk ll lr lh]; [done|].
  assert ((getHeight (Node lk ll lr lh) - getHeight r >? 1) = true) as -> by lia.
  cbn [key_of mbind option_bind]. simpl in Hl, Hb, Hg.
  destruct Hl as (Hll & Hlr & -> & Hlb). avl_heights.
  destruct Hg as [[Hg1 Hg2]|[[Hk Hg]|[Hk Hg]]]; [lia| |].
  - rewrite Hk. cbn -[Z.max Z.add].
    eexists; split; [done|]. simpl. repeat split; auto; lia.
  - rewrite (StrFacts.ltb_asym _ _ Hk). cbn [mbind option_bind].
    assert ((1 + Z.max (getHeight ll) (getHeight lr) - getHeight r <? -1) = false)
      as Hlt by lia.
    cbn [getHeight]. rewrite Hlt. cbn [mbind option_bind].
    unfold Str.gtb. rewrite Hk. cbn [mbind option_bind].
    destruct (avl_height_pos_node lr Hlr) as (xk & xl & xr & xh & ->); [lia|].
    simpl in Hlr, Hg. destruct Hlr as (Hxl & Hxr & -> & Hxb). avl_heights.
    cbn -[Z.max Z.add].
    eexists; split; [done|]. simpl. repeat split; auto; lia.
Qed.

(** The right-heavy half of [rebalance]. *)
Lemma rebalance_right_heavy key k l r :
  avl l → avl r → getHeight l - getHeight r = -2 → grew r key →
  ∃ t', rebalance key k l r = Some t' ∧ avl t' ∧ getHeight t' = getHeight r.
Proof.
  intros Hl Hr Hb Hg. unfold rebalance. cbn [getBalance].
  destruct r as [|rk rl rr rh]; [done|].
  assert ((getHeight l - getHeight (Node rk rl rr rh) >? 1) = false) as -> by lia.
  assert ((getHeight l - getHeight (Node rk rl rr rh) <? -1) = true) as -> by lia.
  cbn [key_of mbind option_bind]. simpl in Hr, Hb, Hg.
  destruct Hr as (Hrl & Hrr & -> & Hrb). avl_heights.
  destruct Hg as [[Hg1 Hg2]|[[Hk Hg]|[Hk Hg]]]; [lia| |].
  - unfold Str.gtb. rewrite (StrFacts.ltb_asym _ _ Hk), Hk.
    cbn [mbind option_bind].
    destruct (avl_height_pos_node rl Hrl) as (xk & xl & xr & xh & ->); [lia|].
    simpl in Hrl, Hg. destruct Hrl as (Hxl & Hxr & -> & Hxb). avl_heights.
    cbn -[Z.max Z.add].
    eexists; split; [done|]. simpl. repeat split; auto; lia.
  - unfold Str.gtb. rewrite Hk. cbn -[Z.max Z.add].
    eexists; split; [done|]. simpl. repeat split; auto; lia.
Qed.

(** Within the balance bounds [rebalance] only refreshes the height. *)
Lemma rebalance_balanced key k l r :
  -1 ≤ getHeight l - getHeight r ≤ 1 →
  rebalance key k l r
  = Some (Node k l r (1 + Z.max (getHeight l) (getHeight r))).
Proof.
  intros Hb. unfold rebalance. cbn [getBalance].
  assert ((getHeight l - getHeight r >? 1) = false) as -> by lia.
  assert ((getHeight l - getHeight r <? -1) = false) as -> by lia.
  done.
Qed.

Lemma insertAVL_avl t key :
  avl t →
  ∃ t', insertAVL t key = Some t' ∧ avl t'
        ∧ (getHeight t' = getHeight t
           ∨ (getHeight t' = getHeight t + 1 ∧ grew t' key)).
Proof.
  induction t as [|k l IHl r IHr h]; intros Ht.
  - eexists; split; [done|]. simpl. split; [lia|]. right. split; [done|].
    by left.
  - simpl in Ht. destruct Ht as (Hl & Hr & -> & Hb). simpl insertAVL.
    destruct (Str.ltb key k) eqn:Hlt; [|destruct (Str.gtb key k) eqn:Hgt].
    + destruct (IHl Hl) as (l' & -> & Hl' & Hh). cbn [mbind option_bind].
      avl_heights.
      destruct (decide (getHeight l' - getHeight r = 2)) as [H2|H2].
      * destruct (rebalance_left_heavy key k l' r) as (t' & -> & Ht' & Hht');
          auto.
        { destruct Hh as [Hh|[Hh Hg]]; [lia|done]. }
        eexists; split; [done|]. split; [done|]. left. simpl. lia.
      * rewrite rebalance_balanced by lia.
        eexists; split; [done|]. split.
        { simpl. repeat split; auto; lia. }
        destruct Hh as [Hh|[Hh Hg]]; simpl; [left; lia|].
        destruct (decide (getHeight l = getHeight r)); [right|left; lia].
        split; [lia|]. right. left. split; [done|lia].
    + destruct (IHr Hr) as (r' & -> & Hr' & Hh). cbn [mbind option_bind].
      avl_heights.
      destruct (decide (getHeight l - getHeight r' = -2)) as [H2|H2].
      * destruct (rebalance_right_heavy key k l r') as (t' & -> & Ht' & Hht');
          auto.
        { destruct Hh as [Hh|[Hh Hg]]; [lia|done]. }
        eexists; split; [done|]. split; [done|]. left. simpl. lia.
      * rewrite rebalance_balanced by lia.
        eexists; split; [done|]. split.
        { simpl. repeat split; auto; lia. }
        destruct Hh as [Hh|[Hh Hg]]; simpl; [left; lia|].
        destruct (decide (getHeight l = getHeight r)); [right|left; lia].
        split; [lia|]. right. right. split; [done|lia].
    + eexists; split; [done|]. split; [by simpl|]. by left.
Qed.

Lemma build_from_snoc t ws w :
  build_from t (ws ++ [w]) = (t' ← build_from t ws; insertAVL t' w).
Proof. unfold build_from. by rewrite foldl_app. Qed.

Lemma build_from_avl t ws :
  avl t → ∃ t', build_from t ws = Some t' ∧ avl t'.
Proof.
  intros Ht. induction ws as [|w ws IH] using rev_ind.
  - by exists t.
  - destruct IH as (t1 & H1 & Ht1). rewrite build_from_snoc, H1.
    destruct (insertAVL_avl t1 w Ht1) as (t2 & H2 & Ht2 & _).
    exists t2. by rewrite <- H2.
Qed.

End AVLBalance.

(** ** The dictionary: order and contents *)

Section AVLOrder.

Lemma sorted_middle xs a ys :
  sorted (xs ++ a :: ys) ↔
  sorted xs ∧ sorted ys ∧ Forall (λ x, Str.lt x a) xs ∧ Forall (Str.lt a) ys
  ∧ (∀ x y, x ∈ xs → y ∈ ys → Str.lt x y).
Proof.
  unfold sorted. rewrite StronglySorted_app, StronglySorted_cons.
  rewrite !Forall_forall. split.
  - intros (H & Hxs & Hys & Hy). repeat split; auto.
    + intros x Hx. apply (H x a Hx). by left.
    + intros x y Hx Hy'. apply (H x y Hx). by right.
  - intros (Hxs & Hys & Hxa & Hay & Hxy). repeat split; auto.
    intros x y Hx [->|Hy]%elem_of_cons; auto.
Qed.

Lemma rightRotate_inorder t t' :
  rightRotate t = Some t' → inorder t' = inorder t.
Proof.
  destruct t as [|yk [|xk xl T2 xh] yr yh]; simpl; try done.
  intros [= <-]. simpl. by rewrite <- app_assoc.
Qed.

Lemma leftRotate_inorder t t' :
  leftRotate t = Some t' → inorder t' = inorder t.
Proof.
  destruct t as [|xk xl [|yk T2 yr yh] xh]; simpl; try done.
  intros [= <-]. simpl. by rewrite <- app_assoc.
Qed.

Lemma rebalance_inorder key k l r t' :
  rebalance key k l r = Some t' → inorder t' = inorder l ++ k :: inorder r.
Proof.
  unfold rebalance. intros H.
  repeat match type of H with
  | context [mbind _ ?o] =>
      let E := fresh "E" in
      destruct o as [[]|] eqn:E; cbn [mbind option_bind] in H; try done
  end;
  repeat match goal with
  | H : rightRotate _ = Some _ |- _ => apply rightRotate_inorder in H
  | H : leftRotate _ = Some _ |- _ => apply leftRotate_inorder in H
  | H : Some _ = Some _ |- _ => injection H as <-
  end; simpl in *; congruence.
Qed.

Lemma ins_list_before key xs a ys :
  Str.ltb key a = true →
  ins_list key (xs ++ a :: ys) = ins_list key xs ++ a :: ys.
Proof.
  intros Ha. induction xs as [|x xs IH]; simpl.
  - by rewrite Ha.
  - destruct (Str.ltb key x); [done|]. destruct (Str.ltb x key); [|done].
    by rewrite IH.
Qed.

Lemma ins_list_after key xs a ys :
  Str.ltb a key = true → Forall (λ x, Str.lt x a) xs →
  ins_list key (xs ++ a :: ys) = xs ++ a :: ins_list key ys.
Proof.
  intros Ha. induction 1 as [|x xs Hx _ IH]; simpl.
  - by rewrite (StrFacts.ltb_asym _ _ Ha), Ha.
  - pose proof (StrFacts.ltb_trans _ _ _ Hx Ha) as Hxk.
    by rewrite (StrFacts.ltb_asym _ _ Hxk), Hxk, IH.
Qed.

Lemma ins_list_at key xs ys :
  Forall (λ x, Str.lt x key) xs →
  ins_list key (xs ++ key :: ys) = xs ++ key :: ys.
Proof.
  induction 1 as [|x xs Hx _ IH]; simpl.
  - by rewrite StrFacts.ltb_irrefl.
  - by rewrite (StrFacts.ltb_asym _ _ Hx), Hx, IH.
Qed.

Lemma insertAVL_inorder t key t' :
  sorted (inorder t) → insertAVL t key = Some t' →
  inorder t' = ins_list key (inorder t).
Proof.
  revert t'. induction t as [|k l IHl r IHr h]; intros t' Hs H.
  - by injection H as <-.
  - simpl in Hs, H. apply sorted_middle in Hs as (Hl & Hr & Hlk & Hkr & _).
    destruct (Str.ltb key k) eqn:Hlt; [|destruct (Str.gtb key k) eqn:Hgt].
    + destruct (insertAVL l key) as [l'|] eqn:El; [|done].
      cbn [mbind option_bind] in H. apply rebalance_inorder in H.
      simpl. by rewrite H, (IHl l' Hl eq_refl), ins_list_before.
    + destruct (insertAVL r key) as [r'|] eqn:Er; [|done].
      cbn [mbind option_bind] in H. apply rebalance_inorder in H.
      simpl. by rewrite H, (IHr r' Hr eq_refl), ins_list_after.
    + injection H as <-. rewrite (StrFacts.ltb_total key k Hlt Hgt).
      simpl. by rewrite ins_list_at.
Qed.

Lemma elem_of_ins_list x key l : x ∈ ins_list key l ↔ x = key ∨ x ∈ l.
Proof.
  induction l as [|y l IH]; simpl.
  - rewrite list_elem_of_singleton, elem_of_nil. tauto.
  - destruct (Str.ltb key y) eqn:E1; [rewrite !elem_of_cons; tauto|].
    destruct (Str.ltb y key) eqn:E2.
    + rewrite !elem_of_cons, IH. tauto.
    + rewrite (StrFacts.ltb_total key y E1 E2), !elem_of_cons. tauto.
Qed.

Lemma ins_list_sorted key l : sorted l → sorted (ins_list key l).
Proof.
  unfold sorted. induction 1 as [|y l Hl IH Hy]; simpl.
  - repeat constructor.
  - destruct (Str.ltb key y) eqn:E1.
    + constructor; [by constructor|]. constructor; [done|].
      eapply Forall_impl; [exact Hy|]. intros z Hz.
      by apply (StrFacts.ltb_trans key y z).
    + destruct (Str.ltb y key) eqn:E2; [|by constructor].
      constructor; [done|]. apply Forall_forall. intros z Hz.
      apply elem_of_ins_list in Hz as [->|Hz]; [done|].
      by apply (proj1 (Forall_forall _ _) Hy).
Qed.

Lemma sorted_NoDup l : sorted l → NoDup l.
Proof.
  unfold sorted. induction 1 as [|y l Hl IH Hy]; constructor; [|done].
  intros Hin. apply (proj1 (Forall_forall _ _) Hy) in Hin.
  unfold Str.lt in Hin. by rewrite StrFacts.ltb_irrefl in Hin.
Qed.

Lemma searchAVL_inorder t key :
  sorted (inorder t) → searchAVL t key = true ↔ key ∈ inorder t.
Proof.
  induction t as [|k l IHl r IHr h]; simpl; intros Hs.
  - split; [done|]. by intros ?%elem_of_nil.
  - apply sorted_middle in Hs as (Hl & Hr & Hlk & Hkr & _).
    rewrite elem_of_app, elem_of_cons. unfold Str.eqb.
    case_bool_decide as Hk; [tauto|].
    destruct (Str.ltb key k) eqn:Hlt.
    + rewrite (IHl Hl). split; [tauto|]. intros [?|[?|Hin]]; [done..|].
      apply (proj1 (Forall_forall _ _) Hkr) in Hin.
      by rewrite (StrFacts.ltb_asym _ _ Hin) in Hlt.
    + rewrite (IHr Hr). split; [tauto|]. intros [Hin|[?|?]]; [|done..].
      apply (proj1 (Forall_forall _ _) Hlk) in Hin. unfold Str.lt in Hin.
      congruence.
Qed.

(** The keys of the tree after a run of insertions, as a list. *)
Lemma build_from_inorder t ws t' :
  sorted (inorder t) → build_from t ws = Some t' →
  inorder t' = foldl (λ l w, ins_list w l) (inorder t) ws
  ∧ sorted (inorder t').
Proof.
  intros Ht. revert t'. induction ws as [|w ws IH] using rev_ind; intros t'.
  - by intros [= <-].
  - rewrite build_from_snoc, foldl_app. simpl.
    destruct (build_from t ws) as [t1|]; [|done]. cbn [mbind option_bind].
    destruct (IH t1 eq_refl) as [<- Hs]. intros H.
    rewrite (insertAVL_inorder t1 w t' Hs H). split; [done|].
    by apply ins_list_sorted.
Qed.

Lemma elem_of_foldl_ins_list x l ws :
  x ∈ foldl (λ l w, ins_list w l) l ws ↔ x ∈ ws ∨ x ∈ l.
Proof.
  revert l. induction ws as [|w ws IH]; intros l; simpl.
  - rewrite elem_of_nil. tauto.
  - rewrite IH, elem_of_ins_list, elem_of_cons. tauto.
Qed.

(** Inserting a key that the tree holds returns the tree as it is. *)
Lemma insertAVL_present t key :
  avl t → sorted (inorder t) → key ∈ inorder t → insertAVL t key = Some t.
Proof.
  induction t as [|k l IHl r IHr h]; simpl; intros Ha Hs Hin.
  - by apply elem_of_nil in Hin.
  - destruct Ha as (Hal & Har & -> & Hb).
    apply sorted_middle in Hs as (Hl & Hr & Hlk & Hkr & _).
    apply elem_of_app in Hin. rewrite elem_of_cons in Hin.
    destruct (Str.ltb key k) eqn:Hlt; [|destruct (Str.gtb key k) eqn:Hgt];
      [| |done].
    + rewrite IHl; auto.
      * cbn [mbind option_bind]. by rewrite rebalance_balanced.
      * destruct Hin as [?|[->|Hin]]; [done| |].
        -- by rewrite StrFacts.ltb_irrefl in Hlt.
        -- apply (proj1 (Forall_forall _ _) Hkr) in Hin.
           by rewrite (StrFacts.ltb_asym _ _ Hin) in Hlt.
    + rewrite IHr; auto.
      * cbn [mbind option_bind]. by rewrite rebalance_balanced.
      * destruct Hin as [Hin|[->|?]]; [| |done].
        -- apply (proj1 (Forall_forall _ _) Hlk) in Hin. unfold Str.lt in Hin.
           congruence.
        -- unfold Str.gtb in Hgt. by rewrite StrFacts.ltb_irrefl in Hgt.
Qed.

End AVLOrder.

(** ** The dictionary: the properties claimed *)

Lemma build_ok (words : list str) :
  ∃ t, build words = Some t ∧ avl t ∧ sorted (inorder t)
       ∧ ∀ w, w ∈ inorder t ↔ w ∈ words.
Proof.
  destruct (build_from_avl Null words I) as (t & Ht & Havl).
  destruct (build_from_inorder Null words t) as [Hin Hs]; [constructor|done|].
  exists t. repeat split; try done.
  - rewrite Hin, elem_of_foldl_ins_list. simpl. rewrite elem_of_nil. tauto.
  - rewrite Hin, elem_of_foldl_ins_list. tauto.
Qed.

(** C3: after any sequence of insertions into the empty dictionary, the
    search finds exactly the words of the sequence: it returns [true] on
    each of them and [false] on every other word. *)
Theorem searchAVL_after_inserts (words : list str) (w : str) :
  ∃ t, build words = Some t
       ∧ (w ∈ words → searchAVL t w = true)
       ∧ (w ∉ words → searchAVL t w = false).
Proof.
  destruct (build_ok words) as (t & Ht & _ & Hs & Hin).
  exists t. split; [done|].
  pose proof (searchAVL_inorder t w Hs) as Hsearch. rewrite Hin in Hsearch.
  split; [tauto|]. intros Hn. destruct (searchAVL t w); [tauto|done].
Qed.

(** C4: after every single insertion of a run that starts from the empty
    dictionary (that is, after every prefix of the word sequence), each node
    of the tree has children whose heights differ by at most one, both as
    stored and as measured on the shape, and stores one plus the larger of
    its children's heights, which is its height as measured on the shape. *)
Theorem balanced_after_every_insertion (words : list str) (n : nat) :
  ∃ t, build (take n words) = Some t ∧ Forall node_ok (nodes t).
Proof.
  destruct (build_ok (take n words)) as (t & Ht & Havl & _).
  exists t. split; [done|]. by apply avl_nodes.
Qed.

(** C5: the in-order traversal of a dictionary built from the empty one is
    strictly increasing for the order of [std::string], hence free of
    duplicates, whatever the order of the insertions: inserting the same
    words in another order gives the same traversal; and a rotation, where
    it is defined, leaves the in-order traversal of its argument unchanged. *)
Theorem inorder_strictly_sorted (words : list str) :
  (∃ t, build words = Some t
        ∧ StronglySorted Str.lt (inorder t) ∧ NoDup (inorder t)
        ∧ ∀ words', words' ≡ₚ words →
            ∃ t', build words' = Some t' ∧ inorder t' = inorder t)
  ∧ (∀ s s', rightRotate s = Some s' → inorder s' = inorder s)
  ∧ (∀ s s', leftRotate s = Some s' → inorder s' = inorder s).
Proof.
  split; [|split].
  - destruct (build_ok words) as (t & Ht & _ & Hs & Hin).
    exists t. split_and!; [done..|by apply sorted_NoDup|].
    intros words' Hperm.
    destruct (build_ok words') as (t' & Ht' & _ & Hs' & Hin').
    exists t'. split; [done|].
    apply (StronglySorted_unique_strong Str.lt); [|done..|].
    + intros x y _ _ Hxy Hyx. unfold Str.lt in *.
      by rewrite (StrFacts.ltb_asym _ _ Hxy) in Hyx.
    + apply NoDup_Permutation; [by apply sorted_NoDup..|].
      intros w. by rewrite Hin, Hin', Hperm.
  - apply rightRotate_inorder.
  - apply leftRotate_inorder.
Qed.

Lemma inorder_strictly_sorted_witness :
  (∃ s', rightRotate rotation_sample = Some s'
         ∧ inorder s' = inorder rotation_sample)
  ∧ (∃ s', leftRotate rotation_sample = Some s'
           ∧ inorder s' = inorder rotation_sample).
Proof.
  destruct (inorder_strictly_sorted demo_words) as (_ & Hr & Hl).
  split.
  - eexists. split; [reflexivity|]. apply Hr. reflexivity.
  - eexists. split; [reflexivity|]. apply Hl. reflexivity.
Defined.

(** C9: on any dictionary built from the empty one, a second insertion of
    the word just inserted returns the very same tree (same shape, keys and
    stored heights), so that the dictionary, and with it every search, is
    what it was after the first insertion. *)
Theorem insertAVL_twice (words : list str) (w : str) :
  ∃ t t1, build words = Some t
          ∧ insertAVL t w = Some t1
          ∧ insertAVL t1 w = Some t1
          ∧ build (words ++ [w; w]) = build (words ++ [w])
          ∧ ∀ k, (t2 ← insertAVL t1 w; Some (searchAVL t2 k))
                 = Some (searchAVL t1 k).
Proof.
  destruct (build_ok words) as (t & Ht & Havl & Hs & _).
  destruct (insertAVL_avl t w Havl) as (t1 & H1 & Havl1 & _).
  assert (insertAVL t1 w = Some t1) as H2.
  { apply insertAVL_present; [done| |].
    - rewrite (insertAVL_inorder t w t1 Hs H1). by apply ins_list_sorted.
    - rewrite (insertAVL_inorder t w t1 Hs H1), elem_of_ins_list. by left. }
  exists t, t1. repeat split; try done.
  - unfold build. change [w; w] with ([w] ++ [w]).
    rewrite app_assoc, (build_from_snoc _ (words ++ [w])), build_from_snoc.
    fold (build words). rewrite Ht. cbn [mbind option_bind].
    by rewrite H1.
  - intros k. by rewrite H2.
Qed.

(** ** The trust graph *)

Section TrustGraph.

Lemma degree_value g u : (degree g u).1 = Z.of_nat (length (neighbours g u)).
Proof.
  unfold degree, neighbours, subscript. by destruct (adj g !! u).
Qed.

Lemma degree_graph_lookup g u w :
  adj (degree g u).2 !! w
  = if decide (u = w) then Some (neighbours g u) else adj g !! w.
Proof.
  unfold degree, neighbours, subscript.
  destruct (adj g !! u) eqn:E; simpl; case_decide; subst; try done.
  - by rewrite lookup_insert_eq.
  - by rewrite lookup_insert_ne.
Qed.

Lemma neighbours_degree g u w :
  neighbours (degree g u).2 w = neighbours g w.
Proof.
  unfold neighbours at 1. rewrite degree_graph_lookup.
  case_decide; by subst.
Qed.

Lemma lookup_push_back_at m u v w :
  push_back_at m u v !! w
  = if decide (u = w) then Some (default [] (m !! u) ++ [v]) else m !! w.
Proof.
  unfold push_back_at, subscript.
  destruct (m !! u) eqn:E; simpl; case_decide; subst;
    rewrite ?lookup_insert_eq, ?lookup_insert_ne; try done.
Qed.

Lemma neighbours_addEdge g a b w :
  neighbours (addEdge g a b) w
  = neighbours g w ++ (if decide (a = w) then [b] else [])
                   ++ (if decide (b = w) then [a] else []).
Proof.
  unfold neighbours, addEdge. simpl. rewrite !lookup_push_back_at.
  repeat case_decide; subst; simpl; rewrite ?app_nil_r; try done.
  by rewrite <- app_assoc.
Qed.

Lemma degree_addEdge g a b w :
  (degree (addEdge g a b) w).1
  = (degree g w).1 + (if decide (a = w) then 1 else 0)
                   + (if decide (b = w) then 1 else 0).
Proof.
  rewrite !degree_value, neighbours_addEdge, !length_app.
  repeat case_decide; simpl; lia.
Qed.

Lemma neighbours_run_ops_unmentioned ops u :
  Forall (λ op, ¬ mentions u op) ops → neighbours (run_ops ops) u = [].
Proof.
  unfold run_ops. induction ops as [|op ops IH] using rev_ind; intros H.
  - done.
  - apply Forall_app in H as [H1 H2]. rewrite foldl_app. simpl.
    apply Forall_cons in H2 as [Hop _].
    destruct op as [a b|v]; simpl in *.
    + rewrite neighbours_addEdge, (IH H1).
      rewrite !decide_False by (intros ->; tauto). done.
    + rewrite neighbours_degree. auto.
Qed.

End TrustGraph.

(** C8, as the code has it: [addEdge g a b] with [a ≠ b] raises the degree of
    [a] and the degree of [b] by one each; [addEdge g a a] raises the degree
    of [a] by two, the vector of [a] receiving [a] twice; no other user's
    degree changes; and a user that no [addEdge] call of a run from the empty
    graph has named has degree 0, whatever [degree] queries the run made. *)
Theorem addEdge_degree (g : Graph) (a b : str) :
  (a ≠ b →
     (degree (addEdge g a b) a).1 = (degree g a).1 + 1
     ∧ (degree (addEdge g a b) b).1 = (degree g b).1 + 1)
  ∧ (degree (addEdge g a a) a).1 = (degree g a).1 + 2
  ∧ (∀ w, w ≠ a → w ≠ b → (degree (addEdge g a b) w).1 = (degree g w).1)
  ∧ (∀ ops u, Forall (λ op, ¬ mentions u op) ops →
       (degree (run_ops ops) u).1 = 0).
Proof.
  split_and!.
  - intros Hab. split.
    + rewrite degree_addEdge, decide_True, decide_False; [lia|done..].
    + rewrite degree_addEdge, decide_False, decide_True; [lia|done..].
  - rewrite degree_addEdge, !decide_True; [lia|done..].
  - intros w Ha Hb. rewrite degree_addEdge, !decide_False; [lia|done..].
  - intros ops u H.
    by rewrite degree_value, (neighbours_run_ops_unmentioned ops u H).
Qed.

Lemma addEdge_degree_witness :
  (degree (addEdge demo_graph (Str.of_string "alice") (Str.of_string "charlie"))
     (Str.of_string "alice")).1
  = (degree demo_graph (Str.of_string "alice")).1 + 1
  ∧ (degree (run_ops [AddEdge (Str.of_string "alice") (Str.of_string "bob");
                      Degree (Str.of_string "botuser")])
       (Str.of_string "botuser")).1 = 0.
Proof.
  destruct (addEdge_degree demo_graph (Str.of_string "alice")
              (Str.of_string "charlie")) as (H1 & _ & _ & H4).
  split.
  - apply H1. discriminate.
  - apply H4. constructor; [simpl; intros [?|?]; discriminate|].
    constructor; [simpl; tauto|]. constructor.
Defined.

(** C8 as worded fails on a self-loop: [addEdge g a a] appends to the one
    vector of [a] twice. *)
Lemma addEdge_self_loop_counterexample :
  ¬ addEdge_adds_one_each emptyGraph (Str.of_string "bob") (Str.of_string "bob").
Proof.
  intros (H & _). vm_compute in H. discriminate.
Qed.

(** C10: [degree g u] returns the length of the adjacency list of [u], hence
    0 when [u] has no entry; the call changes no user's degree; it leaves the
    graph as it was when [u] has an entry, and otherwise adds the entry
    [u ↦ []], so that the graph is no longer the one it was. *)
Theorem degree_frame (g : Graph) (u : str) :
  (degree g u).1 = Z.of_nat (length (default [] (adj g !! u)))
  ∧ (adj g !! u = None → (degree g u).1 = 0)
  ∧ (∀ w, (degree (degree g u).2 w).1 = (degree g w).1)
  ∧ (is_Some (adj g !! u) → (degree g u).2 = g)
  ∧ (adj g !! u = None →
       adj (degree g u).2 = <[u := []]> (adj g) ∧ (degree g u).2 ≠ g).
Proof.
  split_and!.
  - apply degree_value.
  - intros H. by rewrite degree_value; unfold neighbours; rewrite H.
  - intros w. by rewrite !degree_value, neighbours_degree.
  - intros [v Hv]. unfold degree, subscript. rewrite Hv. by destruct g.
  - intros H. split.
    + unfold degree, subscript. by rewrite H.
    + intros Heq.
      assert (adj (degree g u).2 !! u = adj g !! u) as E by by rewrite Heq.
      rewrite degree_graph_lookup, decide_True, H in E; done.
Qed.

Lemma degree_frame_witness :
  (degree demo_graph (Str.of_string "botuser")).1 = 0
  ∧ (degree demo_graph (Str.of_string "botuser")).2 ≠ demo_graph
  ∧ (degree demo_graph (Str.of_string "bob")).2 = demo_graph.
Proof.
  destruct (degree_frame demo_graph (Str.of_string "botuser"))
    as (_ & H0 & _ & _ & Hnone).
  destruct (degree_frame demo_graph (Str.of_string "bob"))
    as (_ & _ & _ & Hsome & _).
  split; [|split].
  - apply H0. vm_compute. reflexivity.
  - apply Hnone. vm_compute. reflexivity.
  - apply Hsome. vm_compute. eexists. reflexivity.
Defined.

(** ** The pattern matcher: borders *)

Section Borders.

Local Open Scope nat_scope.

Variable p : str.

Lemma border_zero k : border p k 0.
Proof. split; [lia|]. intros t Ht. lia. Qed.

Lemma border_extend k b :
  border p k b → p !! b = p !! k → border p (S k) (S b).
Proof.
  intros [Hle Hag] Heq. split; [lia|]. intros t Ht.
  replace (S k - S b + t) with (k - b + t) by lia.
  destruct (decide (t = b)) as [->|Hne].
  - replace (k - b + b) with k by lia. done.
  - apply Hag. lia.
Qed.

Lemma border_shrink k b :
  border p (S k) (S b) → border p k b ∧ p !! b = p !! k.
Proof.
  intros [Hle Hag]. split; [split; [lia|]|].
  - intros t Ht. specialize (Hag t). 
    replace (S k - S b + t) with (k - b + t) in Hag by lia. apply Hag. lia.
  - specialize (Hag b). 
    replace (S k - S b + b) with k in Hag by lia. symmetry. apply Hag. lia.
Qed.

Lemma border_trans k b c : border p k b → border p b c → border p k c.
Proof.
  intros [Hle1 Hag1] [Hle2 Hag2]. split; [lia|]. intros t Ht.
  rewrite <- (Hag2 t Ht), <- (Hag1 (b - c + t)) by lia. f_equal. lia.
Qed.

Lemma border_of_border k b c :
  border p k b → border p k c → c ≤ b → border p b c.
Proof.
  intros [Hle1 Hag1] [Hle2 Hag2] Hcb. split; [done|]. intros t Ht.
  rewrite <- (Hag2 t Ht), <- (Hag1 (b - c + t)) by lia. f_equal. lia.
Qed.

Lemma is_lps_one : is_lps p 1 0.
Proof.
  split; [lia|]. split; [apply border_zero|]. intros b Hb _. lia.
Qed.

End Borders.

(** ** The pattern matcher: the failure table *)

Section FailureTable.

Local Open Scope nat_scope.
Import KMPStringMatcher.

Variable p : str.

Lemma at_in_range (s : str) i c : s !! i = Some c → at_ s i = Some c.
Proof. unfold at_. by intros ->. Qed.

Lemma lps_table_store lps i v :
  i < length lps → lps_table p lps i → is_lps p (S i) v →
  lps_table p (<[i := v]> lps) (S i).
Proof.
  intros Hi Htab Hv q Hq. destruct (decide (q = i)) as [->|Hne].
  - exists v. by rewrite list_lookup_insert_eq.
  - rewrite list_lookup_insert_ne by done. apply Htab. lia.
Qed.

(** The loop of [computeLPS], from any state that satisfies its invariant:
    the table is right below [i], [len] is a border of the prefix of length
    [i], and no longer border of it extends by [p[i]]. *)
Lemma lps_loop_correct fuel : ∀ lps len i,
  1 ≤ i ≤ length p → length lps = length p → len < i → border p i len →
  lps_table p lps i →
  (∀ b, len < b < i → border p i b → p !! b ≠ p !! i) →
  2 * (length p - i) + len < fuel →
  ∃ tbl, lps_loop fuel p (length p) lps len i = Some tbl
         ∧ length tbl = length p ∧ lps_table p tbl (length p).
Proof.
  induction fuel as [|fuel IH]; intros lps len i Hi Hlen Hlt Hb Htab Hcand Hfuel;
    [lia|].
  simpl. destruct (i <? length p) eqn:Him.
  2: { apply Nat.ltb_ge in Him. assert (i = length p) as -> by lia. eauto. }
  apply Nat.ltb_lt in Him.
  destruct (lookup_lt_is_Some_2 p i Him) as [ci Hci].
  destruct (lookup_lt_is_Some_2 p len ltac:(lia)) as [cl Hcl].
  rewrite (at_in_range _ _ _ Hci), (at_in_range _ _ _ Hcl).
  cbn [mbind option_bind].
  assert (store lps i = λ x, Some (<[i := x]> lps)) as Hstore.
  { unfold store. by rewrite (proj2 (Nat.ltb_lt _ _)) by lia. }
  case_bool_decide as Heq.
  - (* the characters match *)
    subst cl. rewrite Hstore. cbn [mbind option_bind].
    rewrite !Nat.add_1_r.
    assert (is_lps p (S i) (S len)) as Hlps.
    { split; [lia|]. split.
      - apply border_extend; [done|congruence].
      - intros [|b] Hbi Hbb; [lia|].
        apply border_shrink in Hbb as [Hbb Hbc].
        destruct (decide (len < b)); [|lia].
        exfalso. apply (Hcand b); [lia|done..]. }
    apply IH; try lia.
    + rewrite length_insert. lia.
    + apply Hlps.
    + apply lps_table_store; [lia|done..].
    + intros b Hbr Hbb _. destruct Hlps as (_ & _ & Hmax).
      specialize (Hmax b ltac:(lia) Hbb). lia.
  - destruct (len =? 0) eqn:Hlen0; simpl.
    + (* mismatch with no border left *)
      apply Nat.eqb_eq in Hlen0 as ->.
      rewrite Hstore. cbn [mbind option_bind]. rewrite !Nat.add_1_r.
      assert (is_lps p (S i) 0) as Hlps.
      { split; [lia|]. split; [apply border_zero|].
        intros [|b] Hbi Hbb; [lia|].
        apply border_shrink in Hbb as [Hbb Hbc]. exfalso.
        destruct (decide (b = 0)) as [->|Hb0].
        - apply Heq. congruence.
        - apply (Hcand b); [lia|done..]. }
      apply IH; try lia.
      * rewrite length_insert. lia.
      * apply border_zero.
      * apply lps_table_store; [lia|done..].
      * intros b Hbr Hbb _. destruct Hlps as (_ & _ & Hmax).
        specialize (Hmax b ltac:(lia) Hbb). lia.
    + (* mismatch: fall back to the border of the border *)
      apply Nat.eqb_neq in Hlen0.
      destruct (Htab (len - 1) ltac:(lia)) as (v & Hv & Hlps).
      rewrite Hv. cbn [mbind option_bind].
      replace (S (len - 1)) with len in Hlps by lia.
      destruct Hlps as (Hvlt & Hvb & Hmax).
      apply IH; try lia; try done.
      * by apply (border_trans p i len v).
      * intros b Hbr Hbb. destruct (decide (len < b)) as [Hl|Hl].
        { apply Hcand; [lia|done]. }
        destruct (decide (b = len)) as [->|Hne].
        { rewrite Hci, Hcl. congruence. }
        pose proof (border_of_border p i len b Hb Hbb ltac:(lia)) as Hbl.
        specialize (Hmax b ltac:(lia) Hbl). lia.
Qed.

(** [computeLPS] returns the failure table of a non-empty pattern. *)
Lemma computeLPS_correct fuel :
  1 ≤ length p → 2 * length p ≤ fuel →
  ∃ tbl, computeLPS fuel p = Some tbl
         ∧ length tbl = length p ∧ lps_table p tbl (length p).
Proof.
  intros Hm Hfuel. unfold computeLPS. apply lps_loop_correct; try lia.
  - by rewrite length_replicate.
  - apply border_zero.
  - intros q Hq. assert (q = 0) as -> by lia. exists 0.
    split; [by rewrite lookup_replicate_2 by lia|]. apply is_lps_one.
Qed.

End FailureTable.

(** ** The pattern matcher: the scan *)

Section Scan.

Local Open Scope nat_scope.
Import KMPStringMatcher.

Variables text p : str.

Lemma occurs_at_agree i :
  occurs_at text p i ↔ i + length p ≤ length text ∧ agree text p i (length p).
Proof.
  unfold occurs_at, agree. split; intros [Hle H]; (split; [done|]).
  - intros t Ht. transitivity (take (length p) (drop i text) !! t).
    + by rewrite lookup_take_lt, lookup_drop by done.
    + by rewrite H.
  - apply list_eq. intros t. destruct (decide (t < length p)) as [Ht|Ht].
    + rewrite lookup_take_lt, lookup_drop by done. by apply H.
    + rewrite lookup_take_ge by lia. symmetry. apply lookup_ge_None. lia.
Qed.

Lemma occ_below_S k :
  occ_below text p (S k)
  = occ_below text p k ++ (if decide (occurs_at text p k) then [k] else []).
Proof.
  unfold occ_below. rewrite seq_S, filter_app. f_equal.
Qed.

Lemma occ_below_skip a b :
  a ≤ b → (∀ s, a ≤ s < b → ¬ occurs_at text p s) →
  occ_below text p b = occ_below text p a.
Proof.
  induction 1 as [|b Hab IH]; intros Hno; [done|].
  rewrite occ_below_S, decide_False, app_nil_r.
  - apply IH. intros s Hs. apply Hno. lia.
  - apply Hno. lia.
Qed.

Lemma elem_of_occ_below k i :
  i ∈ occ_below text p k ↔ i < k ∧ occurs_at text p i.
Proof.
  unfold occ_below. rewrite list_elem_of_filter, elem_of_seq. 
  split; intros [? ?]; split; try done; lia.
Qed.

Lemma occ_below_sorted k : StronglySorted lt (occ_below text p k).
Proof.
  induction k as [|k IH]; [constructor|].
  rewrite occ_below_S. apply StronglySorted_app_2; [|done|].
  - intros x y [Hx _]%elem_of_occ_below Hy.
    destruct (decide _); [|by apply elem_of_nil in Hy].
    apply list_elem_of_singleton in Hy as ->. done.
  - destruct (decide _); repeat constructor.
Qed.

(** A start at which some character differs is no occurrence. *)
Lemma mismatch_no_occurrence a j :
  j < length p → text !! (a + j) ≠ p !! j → ¬ occurs_at text p a.
Proof.
  intros Hj Hne [_ Hag]%occurs_at_agree. apply Hne. by apply Hag.
Qed.

(** After [j] matched characters ending at [i], no start strictly between
    [i - j] and [i - v] is an occurrence when [v] is the longest proper
    border of the matched prefix; and the border is matched at [i - v]. *)
Lemma fallback_skip i j v :
  j ≤ i → j ≤ length p → agree text p (i - j) j → is_lps p j v →
  occ_below text p (i - v) = occ_below text p (S (i - j))
  ∧ agree text p (i - v) v.
Proof.
  intros Hji Hjm Hag (Hvj & [_ Hvb] & Hmax). split.
  - apply occ_below_skip; [lia|]. intros s Hs [_ Hocc]%occurs_at_agree.
    assert (border p j (i - s)) as Hb.
    { split; [lia|]. intros t Ht.
      rewrite <- (Hocc t) by lia. rewrite <- (Hag (j - (i - s) + t)) by lia.
      f_equal. lia. }
    specialize (Hmax (i - s) ltac:(lia) Hb). lia.
  - intros t Ht. rewrite <- (Hvb t Ht), <- (Hag (j - v + t)) by lia.
    f_equal. lia.
Qed.

Lemma agree_extend a j :
  agree text p a j → text !! (a + j) = p !! j → agree text p a (S j).
Proof.
  intros Hag Heq t Ht. destruct (decide (t = j)) as [->|Hne]; [done|].
  apply Hag. lia.
Qed.

Variable lps : list nat.
Hypothesis lps_ok : lps_table p lps (length p).

Lemma lps_read j :
  1 ≤ j ≤ length p → ∃ v, lps !! (j - 1) = Some v ∧ is_lps p j v.
Proof using lps_ok.
  intros Hj. destruct (lps_ok (j - 1) ltac:(lia)) as (v & Hv & Hlps).
  exists v. split; [done|]. by replace (S (j - 1)) with j in Hlps by lia.
Qed.

(** The loop of [findPatternOccurrences], from any state that satisfies its
    invariant: [j] characters are matched up to [i], and the occurrences
    found are those that begin before [i - j]. *)
Lemma match_loop_correct fuel : ∀ occ i j,
  j ≤ i ≤ length text → j < length p → agree text p (i - j) j →
  occ = Z.of_nat <$> occ_below text p (i - j) →
  2 * (length text - i) + j < fuel →
  match_loop fuel text p (length text) (length p) lps occ i j
  = Some (Z.of_nat <$> occurrences text p).
Proof using lps_ok.
  induction fuel as [|fuel IH]; intros occ i j Hij Hjm Hag Hocc Hfuel; [lia|].
  cbn [match_loop]. destruct (i <? length text) eqn:Hin.
  2: { apply Nat.ltb_ge in Hin. assert (i = length text) as -> by lia.
       rewrite Hocc. do 2 f_equal. unfold occurrences. symmetry.
       apply occ_below_skip; [lia|].
       intros s Hs [Hle _]. lia. }
  apply Nat.ltb_lt in Hin.
  destruct (lookup_lt_is_Some_2 p j Hjm) as [pj Hpj].
  destruct (lookup_lt_is_Some_2 text i Hin) as [ti Hti].
  rewrite (at_in_range _ _ _ Hpj), (at_in_range _ _ _ Hti).
  cbn [mbind option_bind].
  case_bool_decide as Heq.
  - (* the characters match *)
    subst ti. rewrite !Nat.add_1_r.
    assert (agree text p (i - j) (S j)) as Hag'.
    { apply agree_extend; [done|]. replace (i - j + j) with i by lia.
      congruence. }
    destruct (S j =? length p) eqn:Hfull.
    + (* the whole pattern is matched *)
      apply Nat.eqb_eq in Hfull.
      destruct (lps_read (S j) ltac:(lia)) as (v & Hv & Hlps).
      rewrite Hv. cbn [mbind option_bind].
      destruct (fallback_skip (S i) (S j) v) as [Hskip Hagv]; try done; try lia.
      pose proof Hlps as (Hvj & _).
      apply IH; try lia; try done.
      rewrite Hskip. replace (S i - S j) with (i - j) by lia.
      rewrite occ_below_S, decide_True, fmap_app, Hocc.
      * cbn [fmap list_fmap]. do 3 f_equal. lia.
      * apply occurs_at_agree. split; [lia|]. by rewrite <- Hfull.
    + apply Nat.eqb_neq in Hfull.
      destruct (S i <? length text) eqn:Hin'.
      * apply Nat.ltb_lt in Hin'.
        destruct (lookup_lt_is_Some_2 p (S j) ltac:(lia)) as [pj' Hpj'].
        destruct (lookup_lt_is_Some_2 text (S i) Hin') as [ti' Hti'].
        rewrite (at_in_range _ _ _ Hpj'), (at_in_range _ _ _ Hti').
        cbn [mbind option_bind].
        case_bool_decide as Heq'; cbn [negb].
        -- apply IH; try lia; try done.
        -- (* the next characters differ: fall back at once *)
           destruct (lps_read (S j) ltac:(lia)) as (v & Hv & Hlps).
           rewrite Hv. cbn [mbind option_bind].
           destruct (fallback_skip (S i) (S j) v) as [Hskip Hagv];
             try done; try lia.
           pose proof Hlps as (Hvj & _).
           apply IH; try lia; try done.
           rewrite Hskip. replace (S i - S j) with (i - j) by lia.
           rewrite occ_below_S, decide_False, app_nil_r; [done|].
           apply (mismatch_no_occurrence _ (S j)); [lia|].
           replace (i - j + S j) with (S i) by lia. congruence.
      * cbn [mbind option_bind]. apply IH; try lia; try done.
  - (* the characters differ *)
    assert (¬ occurs_at text p (i - j)) as Hno.
    { apply (mismatch_no_occurrence _ j); [done|].
      replace (i - j + j) with i by lia. congruence. }
    assert ((j =? length p) = false) as -> by (apply Nat.eqb_neq; lia).
    rewrite (proj2 (Nat.ltb_lt _ _) Hin).
    rewrite (at_in_range _ _ _ Hpj), (at_in_range _ _ _ Hti).
    cbn [mbind option_bind]. rewrite bool_decide_eq_false_2 by done. cbn [negb].
    destruct (j =? 0) eqn:Hj0; cbn [negb].
    + apply Nat.eqb_eq in Hj0 as ->. rewrite Nat.add_1_r.
      apply IH; try lia.
      * intros t Ht. lia.
      * replace (S i - 0) with (S (i - 0)) by lia.
        by rewrite occ_below_S, decide_False, app_nil_r.
    + apply Nat.eqb_neq in Hj0.
      destruct (lps_read j ltac:(lia)) as (v & Hv & Hlps).
      rewrite Hv. cbn [mbind option_bind].
      destruct (fallback_skip i j v) as [Hskip Hagv]; try done; try lia.
      pose proof Hlps as (Hvj & _).
      apply IH; try lia; try done.
      rewrite Hskip. by rewrite occ_below_S, decide_False, app_nil_r.
Qed.

End Scan.

(** ** The pattern matcher: the properties claimed *)

Section Matcher.

Local Open Scope nat_scope.
Import KMPStringMatcher.

Lemma findPatternOccurrences_nonempty fuel text pattern :
  pattern ≠ [] → 2 * (length text + length pattern) < fuel →
  findPatternOccurrences fuel text pattern
  = Some (Z.of_nat <$> occurrences text pattern).
Proof.
  intros Hne Hfuel. unfold findPatternOccurrences.
  assert (1 ≤ length pattern) as Hm by (destruct pattern; [done|simpl; lia]).
  assert ((length pattern =? 0) = false) as -> by (apply Nat.eqb_neq; lia).
  destruct (computeLPS_correct pattern fuel) as (lps & -> & _ & Htab);
    [lia..|].
  cbn [mbind option_bind].
  apply match_loop_correct; try done; try lia.
  intros t Ht. lia.
Qed.

Lemma findPatternOccurrences_empty fuel text :
  findPatternOccurrences fuel text [] = Some [].
Proof. done. Qed.

Lemma elem_of_occurrences text pattern i :
  i ∈ occurrences text pattern ↔ occurs_at text pattern i.
Proof.
  unfold occurrences. rewrite elem_of_occ_below. split; [tauto|].
  intros H. split; [|done]. destruct H as [H _]. lia.
Qed.

Lemma containsPattern_nonempty fuel text pattern :
  pattern ≠ [] → 2 * (length text + length pattern) < fuel →
  containsPattern fuel text pattern
  = Some (bool_decide (occurrences text pattern ≠ [])).
Proof.
  intros Hne Hfuel. unfold containsPattern.
  rewrite findPatternOccurrences_nonempty by done. cbn [mbind option_bind].
  f_equal. destruct (occurrences text pattern); by simpl.
Qed.

End Matcher.

(** C2: for a non-empty pattern, [findPatternOccurrences] returns, given
    enough fuel for its two loops, the offsets [i] at which the substring of
    [text] of the length of the pattern equals the pattern: all of them, no
    other offset, in strictly increasing order, overlapping occurrences
    included ("aa" in "aaaa" gives 0, 1, 2).  For the empty pattern it
    returns no occurrence.  [containsPattern] is [true] exactly when the list
    returned is not empty. *)
Theorem findPatternOccurrences_correct (fuel : nat) (text pattern : str) :
  (pattern ≠ [] → (2 * (length text + length pattern) < fuel)%nat →
     ∃ occ : list nat,
       KMPStringMatcher.findPatternOccurrences fuel text pattern
       = Some (Z.of_nat <$> occ)
       ∧ (∀ i, i ∈ occ ↔ occurs_at text pattern i)
       ∧ StronglySorted lt occ)
  ∧ KMPStringMatcher.findPatternOccurrences fuel text [] = Some []
  ∧ KMPStringMatcher.containsPattern fuel text pattern
    = (λ occ, bool_decide (occ ≠ []))
        <$> KMPStringMatcher.findPatternOccurrences fuel text pattern
  ∧ KMPStringMatcher.findPatternOccurrences 13
      (Str.of_string "aaaa") (Str.of_string "aa") = Some [0; 1; 2].
Proof.
  split_and!.
  - intros Hne Hfuel. exists (occurrences text pattern). split_and!.
    + by apply findPatternOccurrences_nonempty.
    + apply elem_of_occurrences.
    + apply occ_below_sorted.
  - done.
  - unfold KMPStringMatcher.containsPattern.
    destruct (KMPStringMatcher.findPatternOccurrences fuel text pattern)
      as [[|x occ]|]; done.
  - by vm_compute.
Qed.

Lemma findPatternOccurrences_correct_witness :
  ∃ occ : list nat,
    KMPStringMatcher.findPatternOccurrences 13
      (Str.of_string "aaaa") (Str.of_string "aa") = Some (Z.of_nat <$> occ)
    ∧ (∀ i, i ∈ occ ↔ occurs_at (Str.of_string "aaaa") (Str.of_string "aa") i)
    ∧ StronglySorted lt occ.
Proof.
  apply (findPatternOccurrences_correct 13 (Str.of_string "aaaa")
           (Str.of_string "aa")).
  - discriminate.
  - vm_compute. lia.
Defined.

(** ** The scoring: tokens *)

Section Tokens.

Local Open Scope nat_scope.

Lemma split_ws_cur s c cur :
  split_ws s (c :: cur)
  = ((c :: cur) ++ (read_word s).1) :: split_ws (read_word s).2 [].
Proof.
  revert c cur. induction s as [|d s IH]; intros c cur; simpl.
  - by rewrite app_nil_r.
  - destruct (isspace d) eqn:Hd; simpl.
    + by rewrite app_nil_r, Hd.
    + rewrite IH. destruct (read_word s) as [w rest]. simpl.
      by rewrite <- app_assoc.
Qed.

Lemma split_ws_skip s : split_ws s [] = split_ws (skip_ws s) [].
Proof.
  induction s as [|c s IH]; simpl; [done|].
  destruct (isspace c) eqn:Hc; [done|]. simpl. by rewrite Hc.
Qed.

Lemma skip_ws_length s : length (skip_ws s) ≤ length s.
Proof.
  induction s as [|c s IH]; simpl; [done|].
  destruct (isspace c); simpl; lia.
Qed.

Lemma skip_ws_head s c s' : skip_ws s = c :: s' → isspace c = false.
Proof.
  induction s as [|d s IH]; simpl; [done|].
  destruct (isspace d) eqn:Hd; [done|]. by intros [= -> _].
Qed.

Lemma read_word_length s : length (read_word s).2 ≤ length s.
Proof.
  induction s as [|c s IH]; simpl; [done|].
  destruct (isspace c); simpl; [lia|].
  destruct (read_word s) as [w rest]. simpl in *. lia.
Qed.

(** [ss >> word] fails exactly when no token is left, and otherwise yields
    the first token and a shorter stream holding the others. *)
Lemma extract_tokens ss :
  match extract ss with
  | None => tokens ss = []
  | Some (w, rest) => tokens ss = w :: tokens rest ∧ length rest < length ss
  end.
Proof.
  unfold extract, tokens. rewrite (split_ws_skip ss).
  pose proof (skip_ws_length ss) as Hlen.
  destruct (skip_ws ss) as [|c s1] eqn:Hskip; simpl; [done|].
  rewrite (skip_ws_head _ _ _ Hskip). pose proof (read_word_length s1) as Hr.
  rewrite split_ws_cur. destruct (read_word s1) as [w rest]. simpl in *.
  split; [done|lia].
Qed.

End Tokens.

(** ** The scoring: the loops over words and phrases *)

Section Scoring.

Variables (bannedWords : AVLNode) (words : list str).
Hypothesis dictionary : ∀ w, searchAVL bannedWords w = true ↔ w ∈ words.

Lemma hits_cons w ws :
  filter (λ w, w ∈ words) (w :: ws)
  = (if searchAVL bannedWords w then [w] else [])
      ++ filter (λ w, w ∈ words) ws.
Proof using dictionary.
  rewrite filter_cons. destruct (searchAVL bannedWords w) eqn:E.
  - by rewrite decide_True by by apply dictionary.
  - rewrite decide_False; [done|]. rewrite <- dictionary. congruence.
Qed.

Lemma word_loop_correct user fuel : ∀ ss sev out,
  (length ss < fuel)%nat →
  word_loop fuel bannedWords user ss sev out
  = Some (sev + Z.of_nat (length (word_hits words ss)),
          out ++ map (λ w, BannedWordDetected w user) (word_hits words ss)).
Proof using dictionary.
  unfold word_hits.
  induction fuel as [|fuel IH]; intros ss sev out Hfuel; [lia|].
  simpl. pose proof (extract_tokens ss) as Hex.
  destruct (extract ss) as [[w rest]|].
  - destruct Hex as [-> Hlen]. rewrite map_cons, hits_cons.
    destruct (searchAVL bannedWords (map tolower w)); rewrite IH by lia; simpl.
    + rewrite <- app_assoc. do 2 f_equal. lia.
    + done.
  - rewrite Hex. simpl. rewrite app_nil_r. do 2 f_equal. lia.
Qed.

Lemma phrase_loop_correct text user fuel : ∀ phrases sev out,
  (∀ ph, ph ∈ phrases → (2 * (length text + length ph) < fuel)%nat) →
  phrase_loop fuel text user phrases sev out
  = Some (sev + 2 * Z.of_nat
                      (length (filter (λ ph, ph ≠ [] ∧ occurrences text ph ≠ [])
                                 phrases)),
          out ++ map (λ ph, BannedPhraseDetected ph user)
                   (filter (λ ph, ph ≠ [] ∧ occurrences text ph ≠ []) phrases)).
Proof.
  induction phrases as [|ph phrases IH]; intros sev out Hfuel; simpl.
  - rewrite app_nil_r. do 2 f_equal. lia.
  - rewrite filter_cons. destruct (decide (ph = [])) as [->|Hne].
    + cbn [mbind option_bind KMPStringMatcher.containsPattern
           KMPStringMatcher.findPatternOccurrences length Nat.eqb].
      rewrite bool_decide_eq_true_2 by done. cbn [negb].
      rewrite decide_False by tauto. apply IH.
      intros ph Hph. apply Hfuel. by right.
    + rewrite containsPattern_nonempty; [|done|apply Hfuel; by left].
      cbn [mbind option_bind]. case_bool_decide as Hocc.
      * rewrite decide_True by done. rewrite IH.
        -- simpl. rewrite <- app_assoc. do 2 f_equal. lia.
        -- intros ph' Hph. apply Hfuel. by right.
      * rewrite decide_False by tauto. apply IH.
        intros ph' Hph. apply Hfuel. by right.
Qed.

End Scoring.

Lemma reputation_of_default (userReputation : gmap str Z) user :
  reputation_of userReputation user = default 0 (userReputation !! user).
Proof.
  unfold reputation_of, subscript. by destruct (userReputation !! user).
Qed.

Lemma occurs_in_occurrences text phrase :
  occurs_in text phrase ↔ phrase ≠ [] ∧ occurrences text phrase ≠ [].
Proof.
  unfold occurs_in. split; intros [Hne H]; (split; [done|]).
  - destruct H as [i Hi]. apply elem_of_occurrences in Hi.
    intros E. rewrite E in Hi. by apply elem_of_nil in Hi.
  - destruct (occurrences text phrase) as [|i l] eqn:E; [done|].
    exists i. apply elem_of_occurrences. rewrite E. by left.
Qed.

Lemma elem_of_word_hits words content w :
  w ∈ word_hits words content
  ↔ w ∈ words ∧ ∃ tok, tok ∈ tokens content ∧ w = map tolower tok.
Proof.
  unfold word_hits. rewrite list_elem_of_filter.
  change (map (map tolower) (tokens content))
    with (map tolower <$> tokens content).
  rewrite list_elem_of_fmap. split.
  - intros (Hw & tok & -> & Htok). eauto.
  - intros (Hw & tok & Htok & ->). eauto.
Qed.

Lemma elem_of_phrase_hits phrases content ph :
  ph ∈ phrase_hits phrases content
  ↔ ph ∈ phrases ∧ occurs_in (map tolower content) ph.
Proof.
  unfold phrase_hits. rewrite list_elem_of_filter, occurs_in_occurrences. tauto.
Qed.

Lemma analyze_post_eq fuel dict words phrases userReputation g user content :
  (∀ w, searchAVL dict w = true ↔ w ∈ words) →
  (length content < fuel)%nat →
  (∀ ph, ph ∈ phrases → (2 * (length content + length ph) < fuel)%nat) →
  ∃ a, analyze_post fuel dict phrases userReputation g (user, content) = Some a
       ∧ an_severity a
         = severity_sum words phrases userReputation g user content
       ∧ an_output a
         = signal_events words phrases userReputation g user content
             ++ (if an_severity a >? 0 then [PostFlagged (an_severity a)]
                 else [])
       ∧ an_graph a = (degree g user).2.
Proof.
  intros Hdict Hfuel Hph. unfold analyze_post. cbn [fst snd].
  rewrite (word_loop_correct dict words Hdict) by done.
  cbn [mbind option_bind].
  rewrite phrase_loop_correct by (intros ph ?; rewrite length_map; auto).
  cbn [mbind option_bind].
  rewrite reputation_of_default.
  unfold severity_sum, signal_events, bot_penalty, reputation_penalty.
  fold (phrase_hits phrases content).
  destruct (degree g user) as [deg g'] eqn:Hdeg. cbn [fst snd].
  unfold flag_step.
  destruct (decide (deg = 0)) as [->|Hd];
    [|assert ((deg =? 0) = false) as -> by lia];
    (destruct (decide (default 0 (userReputation !! user) < 5)) as [Hr|Hr];
     [assert ((default 0 (userReputation !! user) <? 5) = true) as -> by lia
     |assert ((default 0 (userReputation !! user) <? 5) = false) as -> by lia]);
    cbn [Z.eqb];
    destruct (_ >? 0) eqn:Hs;
    eexists; (split; [reflexivity|]); cbn [an_severity an_output an_graph];
    rewrite ?Hs, ?app_nil_r, <- ?app_assoc; split_and!; try done; try lia.
Qed.

(** The severity is a small non-negative number: at most one per token, two
    per phrase and three for the author. *)
Lemma severity_sum_bounds words phrases userReputation g user content :
  0 ≤ severity_sum words phrases userReputation g user content
    ≤ Z.of_nat (length (tokens content)) + 2 * Z.of_nat (length phrases) + 3.
Proof.
  unfold severity_sum, bot_penalty, reputation_penalty.
  assert (length (word_hits words content) ≤ length (tokens content))%nat.
  { unfold word_hits. etrans; [apply length_filter|]. by rewrite length_map. }
  assert (length (phrase_hits phrases content) ≤ length phrases)%nat
    by apply length_filter.
  repeat case_decide; lia.
Qed.

(** C1: the severity computed for a post, on a dictionary built from a word
    list, is, given enough fuel for the loops, the sum of 1 for each token of
    the content whose lower-cased form is in the word list, 2 for each
    banned phrase that occurs in the lower-cased content (the empty phrase
    never does), 2 if the degree of the author is 0 and 1 if the author's
    reputation, 0 when the table has none, is below 5; and the signals are
    reported in that order. *)
Theorem severity_is_sum (fuel : nat) (words phrases : list str)
    (userReputation : gmap str Z) (g : Graph) (user content : str) :
  (length content < fuel)%nat →
  (∀ ph, ph ∈ phrases → (2 * (length content + length ph) < fuel)%nat) →
  ∃ dict a,
    build words = Some dict
    ∧ analyze_post fuel dict phrases userReputation g (user, content) = Some a
    ∧ an_severity a
      = 1 * Z.of_nat (length (word_hits words content))
        + 2 * Z.of_nat (length (phrase_hits phrases content))
        + (if decide ((degree g user).1 = 0) then 2 else 0)
        + (if decide (default 0 (userReputation !! user) < 5) then 1 else 0)
    ∧ word_hits words content
      = filter (λ w, w ∈ words) (map (map tolower) (tokens content))
    ∧ (∀ ph, ph ∈ phrase_hits phrases content
             ↔ ph ∈ phrases ∧ occurs_in (map tolower content) ph)
    ∧ an_output a
      = signal_events words phrases userReputation g user content
          ++ (if an_severity a >? 0 then [PostFlagged (an_severity a)] else []).
Proof.
  intros Hfuel Hph.
  destruct (build_ok words) as (dict & Hdict & _ & Hs & Hin).
  assert (∀ w, searchAVL dict w = true ↔ w ∈ words) as Hsearch.
  { intros w. by rewrite (searchAVL_inorder dict w Hs), Hin. }
  destruct (analyze_post_eq fuel dict words phrases userReputation g user
              content Hsearch Hfuel Hph) as (a & Ha & Hsev & Hout & _).
  exists dict, a. split_and!; try done.
  apply elem_of_phrase_hits.
Qed.

Lemma severity_is_sum_witness :
  ∃ dict a,
    build demo_words = Some dict
    ∧ analyze_post 100 dict demo_phrases demo_reputation demo_graph
        (Str.of_string "bob", Str.of_string "this is a scam") = Some a
    ∧ an_severity a = 2.
Proof.
  destruct (severity_is_sum 100 demo_words demo_phrases demo_reputation
              demo_graph (Str.of_string "bob") (Str.of_string "this is a scam"))
    as (dict & a & Hd & Ha & Hs & _).
  - vm_compute. lia.
  - intros ph Hph. 
    repeat (apply elem_of_cons in Hph as [->|Hph]; [vm_compute; lia|]).
    by apply elem_of_nil in Hph.
  - exists dict, a. split_and!; [done..|].
    rewrite Hs. vm_compute. reflexivity.
Defined.


(** ** The scoring: priority and flagging *)

Lemma analyze_post_flagged fuel dict phrases userReputation g post a :
  analyze_post fuel dict phrases userReputation g post = Some a →
  an_flagged a
  = if an_severity a >? 0 then
      Some (mkFlaggedPost post.1 post.2 (an_severity a)
              (getPriority (an_severity a))
              ((degree g post.1).1 =? 0)
              (reputation_of userReputation post.1))
    else None.
Proof.
  unfold analyze_post. intros H.
  destruct (word_loop _ _ _ _ _ _) as [[sev1 out1]|]; [|done].
  cbn [mbind option_bind] in H.
  destruct (phrase_loop _ _ _ _ _ _) as [[sev2 out2]|]; [|done].
  cbn [mbind option_bind] in H.
  destruct (degree g post.1) as [deg g'] eqn:Hdeg. cbn [fst].
  unfold flag_step in H.
  destruct (deg =? 0); destruct (_ <? 5); destruct (_ >? 0) eqn:Hs;
    injection H as <-; cbn [an_severity an_flagged]; by rewrite Hs.
Qed.

(** C6: a severity of 6 or more gives HIGH, one from 3 to 5 MEDIUM, one of 1
    or 2 LOW, and a post whose severity is 0 is not flagged: no
    [FlaggedPost] is built for it, nothing is pushed into the review queue,
    which stays as it was, and no flagging is reported. *)
Theorem priority_tiers (s : Z) :
  (6 ≤ s → getPriority s = Str.of_string "HIGH")
  ∧ (3 ≤ s ≤ 5 → getPriority s = Str.of_string "MEDIUM")
  ∧ (1 ≤ s ≤ 2 → getPriority s = Str.of_string "LOW")
  ∧ (∀ user content isBot rep out,
       (1 ≤ s →
          flag_step user content s isBot rep out
          = (Some (mkFlaggedPost user content s (getPriority s) isBot rep),
             out ++ [PostFlagged s]))
       ∧ (s = 0 → flag_step user content s isBot rep out = (None, out)))
  ∧ (∀ fuel dict phrases userReputation g post a,
       analyze_post fuel dict phrases userReputation g post = Some a →
       an_severity a = s →
       (1 ≤ s → ∃ fp, an_flagged a = Some fp ∧ severity fp = s
                      ∧ priority fp = getPriority s)
       ∧ (s = 0 → an_flagged a = None
                  ∧ ∀ post_lt q q', file_post post_lt a q q' → q' = q)).
Proof.
  split_and!.
  - intros H. unfold getPriority. by rewrite (proj2 (Z.geb_le _ _)) by lia.
  - intros H. unfold getPriority.
    destruct (s >=? 6) eqn:E6; [lia|].
    by rewrite (proj2 (Z.geb_le _ _)) by lia.
  - intros H. unfold getPriority.
    destruct (s >=? 6) eqn:E6; [lia|]. destruct (s >=? 3) eqn:E3; [lia|]. done.
  - intros user content isBot rep out. unfold flag_step. split; intros H.
    + by assert ((s >? 0) = true) as -> by lia.
    + by subst.
  - intros fuel dict phrases userReputation g post a Ha Hs.
    pose proof (analyze_post_flagged _ _ _ _ _ _ _ Ha) as Hf.
    rewrite Hs in Hf. split; intros H.
    + assert ((s >? 0) = true) as E by lia. rewrite E in Hf.
      eexists. split; [exact Hf|]. done.
    + subst s. rewrite H in Hf. simpl in Hf. split; [done|].
      intros post_lt q q'. unfold file_post. by rewrite Hf.
Qed.

Lemma priority_tiers_witness :
  getPriority 7 = Str.of_string "HIGH"
  ∧ getPriority 4 = Str.of_string "MEDIUM"
  ∧ getPriority 2 = Str.of_string "LOW"
  ∧ flag_step (Str.of_string "alice") (Str.of_string "this is a great product")
      0 false 10 [] = (None, []).
Proof.
  split_and!.
  - apply (priority_tiers 7). lia.
  - apply (priority_tiers 4). lia.
  - apply (priority_tiers 2). lia.
  - apply (priority_tiers 0). reflexivity.
Defined.

(** ** The review queue *)

Section ReviewQueueFacts.

Variable post_lt : FlaggedPost → FlaggedPost → bool.

Lemma pair_lt_false_severity (p y : entry) :
  pair_lt post_lt p y = false → y.1 ≤ p.1.
Proof.
  unfold pair_lt. destruct (p.1 <? y.1) eqn:E; [done|]. lia.
Qed.

(** The front of a heap has the largest severity. *)
Lemma heap_front_max c x :
  is_heap post_lt c → c !! 0%nat = Some x →
  ∀ i y, c !! i = Some y → y.1 ≤ x.1.
Proof.
  intros Hheap Hx i. induction i as [i IH] using lt_wf_ind. intros y Hy.
  destruct (decide (i = 0)%nat) as [->|Hi].
  - rewrite Hx in Hy. injection Hy as ->. lia.
  - assert ((i - 1) / 2 < i)%nat as Hpar.
    { apply Nat.le_lt_trans with (i - 1)%nat; [|lia].
      apply Nat.Div0.div_le_upper_bound. lia. }
    destruct (lookup_lt_is_Some_2 c ((i - 1) / 2)) as [p Hp].
    { apply lookup_lt_Some in Hy. lia. }
    pose proof (Hheap i y p ltac:(lia) Hy Hp) as Hlt.
    apply pair_lt_false_severity in Hlt.
    specialize (IH _ Hpar p Hp). lia.
Qed.

Lemma pq_top_max c x :
  is_heap post_lt c → pq_top c = Some x → x ∈ c ∧ ∀ y, y ∈ c → y.1 ≤ x.1.
Proof.
  intros Hheap Htop. destruct c as [|x' c]; [done|]. injection Htop as ->.
  split; [by left|]. intros y [i Hi]%list_elem_of_lookup.
  by apply (heap_front_max (x :: c) x Hheap eq_refl i y).
Qed.

Lemma pushed_heap xs c : pushed post_lt xs c → is_heap post_lt c ∧ c ≡ₚ xs.
Proof.
  induction 1 as [|xs x c c' _ [_ IH] [Hheap Hperm]].
  - split; [|done]. intros i x p _ Hx. by rewrite lookup_nil in Hx.
  - split; [done|]. by rewrite Hperm, IH.
Qed.

Lemma drain_sorted c out :
  drain post_lt c out → is_heap post_lt c →
  out ≡ₚ c ∧ StronglySorted (λ a b : entry, b.1 ≤ a.1) out.
Proof.
  induction 1 as [|c x c' out Htop (x' & rest & -> & Hheap' & Hperm) _ IH];
    intros Hheap.
  - split; [done|constructor].
  - injection Htop as ->. destruct (IH Hheap') as [Hout Hsorted].
    split; [by rewrite Hout, Hperm|].
    constructor; [done|]. apply Forall_forall. intros y Hy.
    destruct (pq_top_max (x :: rest) x Hheap eq_refl) as [_ Hmax].
    apply Hmax. right. by rewrite <- Hperm, <- Hout.
Qed.

Lemma sorted_suffix_le (out l1 l2 : list entry) (b a : entry) :
  StronglySorted (λ a b : entry, b.1 ≤ a.1) out →
  out = l1 ++ b :: l2 → a ∈ l2 → a.1 ≤ b.1.
Proof.
  intros Hs -> Ha. apply StronglySorted_app_1_r in Hs.
  apply StronglySorted_cons in Hs as [Hall _].
  by apply (proj1 (Forall_forall _ _) Hall).
Qed.

(** *** The sorted vector is a queue that meets the contract *)

Hypothesis post_lt_strict_weak : strict_weak post_lt.

Lemma pair_lt_asym a b :
  pair_lt post_lt a b = true → pair_lt post_lt b a = false.
Proof using post_lt_strict_weak.
  destruct post_lt_strict_weak as [Hasym _]. unfold pair_lt.
  destruct (a.1 <? b.1) eqn:E1; destruct (b.1 <? a.1) eqn:E2; simpl;
    try done; try lia.
  apply Hasym.
Qed.

Lemma pair_lt_negtrans a b c :
  pair_lt post_lt a b = false → pair_lt post_lt b c = false →
  pair_lt post_lt a c = false.
Proof using post_lt_strict_weak.
  destruct post_lt_strict_weak as [_ Htrans]. unfold pair_lt.
  destruct (a.1 <? b.1) eqn:E1; destruct (b.1 <? a.1) eqn:E2;
    destruct (b.1 <? c.1) eqn:E3; destruct (c.1 <? b.1) eqn:E4;
    destruct (a.1 <? c.1) eqn:E5; destruct (c.1 <? a.1) eqn:E6; simpl;
    try done; try lia.
  apply Htrans.
Qed.

Lemma insert_desc_perm x c : insert_desc post_lt x c ≡ₚ x :: c.
Proof.
  induction c as [|y c IH]; simpl; [done|].
  destruct (pair_lt post_lt y x); [done|]. by rewrite IH, Permutation_swap.
Qed.

Lemma insert_desc_sorted x c :
  StronglySorted (λ a b, pair_lt post_lt a b = false) c →
  StronglySorted (λ a b, pair_lt post_lt a b = false) (insert_desc post_lt x c).
Proof using post_lt_strict_weak.
  induction 1 as [|y c Hc IH Hy]; simpl.
  - repeat constructor.
  - destruct (pair_lt post_lt y x) eqn:E.
    + constructor; [by constructor|]. constructor; [by apply pair_lt_asym|].
      eapply Forall_impl; [exact Hy|]. intros z Hz. simpl in Hz.
      apply (pair_lt_negtrans x y z); [by apply pair_lt_asym|done].
    + constructor; [done|]. apply Forall_forall. intros z Hz.
      rewrite insert_desc_perm in Hz. apply elem_of_cons in Hz as [->|Hz]; [done|].
      by apply (proj1 (Forall_forall _ _) Hy).
Qed.

Lemma sort_desc_perm c : sort_desc post_lt c ≡ₚ c.
Proof.
  induction c as [|x c IH]; simpl; [done|]. by rewrite insert_desc_perm, IH.
Qed.

Lemma sort_desc_sorted c :
  StronglySorted (λ a b, pair_lt post_lt a b = false) (sort_desc post_lt c).
Proof using post_lt_strict_weak.
  induction c as [|x c IH]; simpl; [constructor|]. by apply insert_desc_sorted.
Qed.

Lemma sorted_lookup_lt (l : list entry) :
  StronglySorted (λ a b, pair_lt post_lt a b = false) l →
  ∀ i j x y, (i < j)%nat → l !! i = Some x → l !! j = Some y →
  pair_lt post_lt x y = false.
Proof.
  induction 1 as [|z l Hl IH Hz]; intros i j x y Hij Hx Hy.
  - by rewrite lookup_nil in Hx.
  - destruct j as [|j]; [lia|]. simpl in Hy. destruct i as [|i]; simpl in Hx.
    + injection Hx as ->. apply (proj1 (Forall_forall _ _) Hz).
      by apply list_elem_of_lookup_2 in Hy.
    + apply (IH i j); [lia|done..].
Qed.

Lemma sort_desc_heap c : is_heap post_lt (sort_desc post_lt c).
Proof using post_lt_strict_weak.
  intros i x p Hi Hx Hp.
  apply (sorted_lookup_lt _ (sort_desc_sorted c) ((i - 1) / 2) i); [|done..].
  apply Nat.le_lt_trans with (i - 1)%nat; [|lia].
  apply Nat.Div0.div_le_upper_bound. lia.
Qed.

Lemma ref_push_ok x c : pq_push post_lt x c (ref_push post_lt x c).
Proof using post_lt_strict_weak.
  split; [apply sort_desc_heap|apply sort_desc_perm].
Qed.

Lemma ref_pop_ok x c : pq_pop post_lt (x :: c) (ref_pop post_lt (x :: c)).
Proof using post_lt_strict_weak.
  exists x, c. split; [done|]. split; [apply sort_desc_heap|apply sort_desc_perm].
Qed.

Lemma ref_pushes_ok xs : pushed post_lt xs (ref_pushes post_lt xs).
Proof using post_lt_strict_weak.
  unfold ref_pushes. induction xs as [|x xs IH] using rev_ind; [constructor|].
  rewrite foldl_app. simpl. econstructor; [exact IH|apply ref_push_ok].
Qed.

Lemma ref_drain_ok fuel : ∀ c,
  (length c ≤ fuel)%nat → drain post_lt c (ref_drain post_lt fuel c).
Proof using post_lt_strict_weak.
  induction fuel as [|fuel IH]; intros [|x c] Hlen; simpl in *;
    try constructor; try lia.
  econstructor; [done|apply ref_pop_ok|]. apply IH.
  unfold ref_pop. simpl. rewrite sort_desc_perm. lia.
Qed.

End ReviewQueueFacts.

(** C7: whatever entries are pushed into the review queue, and whatever
    order [operator<] puts on posts of equal severity, draining the queue
    yields the entries pushed, in non-increasing order of severity: the top
    of the queue has the largest severity held, each entry yielded has a
    severity no smaller than that of any entry yielded after it, and so no
    entry of severity 3 comes after one of severity 1 or 2.  When
    [operator<] is a strict weak order, as the queue requires, the pushes
    and the drain do run to their end. *)
Theorem review_queue_order (post_lt : FlaggedPost → FlaggedPost → bool)
    (xs : list entry) :
  (∀ c out, pushed post_lt xs c → drain post_lt c out →
     out ≡ₚ xs
     ∧ StronglySorted (λ a b : entry, b.1 ≤ a.1) out
     ∧ (∀ x, pq_top c = Some x → x ∈ xs ∧ ∀ y, y ∈ xs → y.1 ≤ x.1)
     ∧ (∀ l1 b l2 a, out = l1 ++ b :: l2 → a ∈ l2 → a.1 ≤ b.1)
     ∧ (∀ l1 b l2 a, out = l1 ++ b :: l2 → 1 ≤ b.1 ≤ 2 → a.1 = 3 → a ∉ l2))
  ∧ (strict_weak post_lt →
     ∃ c out, pushed post_lt xs c ∧ drain post_lt c out).
Proof.
  split.
  - intros c out Hpush Hdrain.
    destruct (pushed_heap post_lt xs c Hpush) as [Hheap Hperm].
    destruct (drain_sorted post_lt c out Hdrain Hheap) as [Hout Hsorted].
    split_and!.
    + by rewrite Hout.
    + done.
    + intros x Hx. destruct (pq_top_max post_lt c x Hheap Hx) as [Hin Hmax].
      split; [by rewrite <- Hperm|]. intros y Hy. apply Hmax.
      by rewrite Hperm.
    + intros l1 b l2 a. by apply sorted_suffix_le.
    + intros l1 b l2 a Hsplit Hb Ha Hin.
      pose proof (sorted_suffix_le out l1 l2 b a Hsorted Hsplit Hin). lia.
  - intros Hswo. exists (ref_pushes post_lt xs).
    exists (ref_drain post_lt (length xs) (ref_pushes post_lt xs)).
    split; [by apply ref_pushes_ok|]. apply ref_drain_ok; [done|].
    destruct (pushed_heap post_lt xs _ (ref_pushes_ok post_lt Hswo xs))
      as [_ Hperm].
    by rewrite Hperm.
Qed.

Lemma no_tie_break_strict_weak : strict_weak no_tie_break.
Proof. by split. Qed.

Lemma review_queue_order_witness :
  ∃ c out,
    pushed no_tie_break demo_entries c ∧ drain no_tie_break c out
    ∧ out ≡ₚ demo_entries
    ∧ StronglySorted (λ a b : entry, b.1 ≤ a.1) out
    ∧ (λ e : entry, (e.1, username e.2)) <$> out
      = [(3, Str.of_string "botuser"); (2, Str.of_string "bob");
         (1, Str.of_string "charlie")].
Proof.
  destruct (review_queue_order no_tie_break demo_entries) as [Hsafe Hlive].
  exists (ref_pushes no_tie_break demo_entries).
  exists (ref_drain no_tie_break 3 (ref_pushes no_tie_break demo_entries)).
  assert (pushed no_tie_break demo_entries (ref_pushes no_tie_break demo_entries))
    as Hp by (apply ref_pushes_ok, no_tie_break_strict_weak).
  assert (drain no_tie_break (ref_pushes no_tie_break demo_entries)
            (ref_drain no_tie_break 3 (ref_pushes no_tie_break demo_entries)))
    as Hd.
  { apply ref_drain_ok; [apply no_tie_break_strict_weak|].
    vm_compute. lia. }
  destruct (Hsafe _ _ Hp Hd) as (H1 & H2 & _).
  split_and!; try done.
Defined.

(** * Further properties of the code *)

(** ** The dictionary *)

Lemma length_ins_list key l :
  sorted l →
  length (ins_list key l)
  = if decide (key ∈ l) then length l else S (length l).
Proof.
  unfold sorted. induction 1 as [|x l Hl IH Hx]; cbn [ins_list].
  - rewrite decide_False; [done|]. by intros ?%elem_of_nil.
  - destruct (Str.ltb key x) eqn:E1.
    + rewrite decide_False; [done|]. intros [->|Hin]%elem_of_cons.
      * by rewrite StrFacts.ltb_irrefl in E1.
      * apply (proj1 (Forall_forall _ _) Hx) in Hin.
        pose proof (StrFacts.ltb_trans _ _ _ E1 Hin) as C.
        by rewrite StrFacts.ltb_irrefl in C.
    + destruct (Str.ltb x key) eqn:E2.
      * cbn [length]. rewrite IH. destruct (decide (key ∈ l)) as [Hin|Hin].
        -- rewrite decide_True; [done|by right].
        -- rewrite decide_False; [done|].
           intros [->|?]%elem_of_cons; [|done].
           by rewrite StrFacts.ltb_irrefl in E2.
      * rewrite (StrFacts.ltb_total key x E1 E2).
        rewrite decide_True; [done|by left].
Qed.

(** X1: [insertAVL] keeps a valid dictionary valid.  On any tree whose nodes
    are balanced and store their heights and whose in-order traversal is
    strictly sorted, the insertion is defined (no null pointer is followed),
    its result is again such a tree, holds the key and the words held
    before, nothing else, is at most one higher and never lower, has one
    more word exactly when the key was not there, and is the tree itself
    when the key was there. *)
Theorem insertAVL_preserves (t : AVLNode) (key : str) :
  avl t → sorted (inorder t) →
  ∃ t', insertAVL t key = Some t'
        ∧ avl t' ∧ sorted (inorder t')
        ∧ (∀ w, w ∈ inorder t' ↔ w = key ∨ w ∈ inorder t)
        ∧ (∀ w, searchAVL t' w = true ↔ w = key ∨ searchAVL t w = true)
        ∧ (getHeight t' = getHeight t ∨ getHeight t' = getHeight t + 1)
        ∧ length (inorder t')
          = (if decide (key ∈ inorder t) then length (inorder t)
             else S (length (inorder t)))
        ∧ (key ∈ inorder t → t' = t).
Proof.
  intros Havl Hs.
  destruct (insertAVL_avl t key Havl) as (t' & Ht' & Havl' & Hh).
  pose proof (insertAVL_inorder t key t' Hs Ht') as Hin.
  assert (sorted (inorder t')) as Hs' by (rewrite Hin; by apply ins_list_sorted).
  exists t'. split_and!; try done.
  - intros w. by rewrite Hin, elem_of_ins_list.
  - intros w. rewrite (searchAVL_inorder t' w Hs'), (searchAVL_inorder t w Hs).
    by rewrite Hin, elem_of_ins_list.
  - destruct Hh as [?|[? _]]; auto.
  - rewrite Hin. by apply length_ins_list.
  - intros Hkey. rewrite (insertAVL_present t key Havl Hs Hkey) in Ht'.
    by injection Ht' as <-.
Qed.

Lemma insertAVL_preserves_witness :
  ∃ t', insertAVL rotation_sample (Str.of_string "b") = Some t'
        ∧ avl t' ∧ sorted (inorder t')
        ∧ length (inorder t') = 6%nat.
Proof.
  destruct (insertAVL_preserves rotation_sample (Str.of_string "b"))
    as (t' & Ht' & Havl & Hs & _ & _ & _ & Hlen & _).
  - simpl. repeat split; lia.
  - unfold sorted, Str.lt. apply (bool_decide_unpack _). by vm_compute.
  - exists t'. split_and!; [done..|]. rewrite Hlen. by vm_compute.
Defined.

(** X2: the search never reports a word that the tree does not hold, whatever
    the shape of the tree, sorted or not. *)
Theorem searchAVL_sound (t : AVLNode) (key : str) :
  searchAVL t key = true → key ∈ inorder t.
Proof.
  induction t as [|k l IHl r IHr h]; simpl; [done|].
  unfold Str.eqb. case_bool_decide as Hk.
  - intros _. subst. apply elem_of_app. right. by left.
  - destruct (Str.ltb key k); intros H; apply elem_of_app.
    + left. auto.
    + right. right. auto.
Qed.

Lemma searchAVL_sound_witness :
  Str.of_string "f" ∈ inorder rotation_sample.
Proof.
  apply (searchAVL_sound rotation_sample (Str.of_string "f")). reflexivity.
Defined.

(** X3: the two rotations undo each other.  When a node and the child that
    the rotation lifts store their heights, rotating one way and then the
    other gives back the tree, stored heights included. *)
Theorem rotations_inverse (x y : AVLNode) :
  (leftRotate x = Some y → stores_height x →
   (∀ r, right_child x = Some r → stores_height r) →
   rightRotate y = Some x)
  ∧ (rightRotate x = Some y → stores_height x →
     (∀ l, left_child x = Some l → stores_height l) →
     leftRotate y = Some x).
Proof.
  split.
  - destruct x as [|xk xl [|yk T2 yr yh] xh]; simpl; try done.
    intros [= <-] -> Hr. specialize (Hr _ eq_refl). simpl in Hr. subst yh.
    cbn [rightRotate leftRotate getHeight]. repeat (f_equal; try lia).
  - destruct x as [|yk [|xk xl T2 xh] yr yh]; simpl; try done.
    intros [= <-] -> Hl. specialize (Hl _ eq_refl). simpl in Hl. subst xh.
    cbn [rightRotate leftRotate getHeight]. repeat (f_equal; try lia).
Qed.

Lemma rotations_inverse_witness :
  ∃ y, leftRotate rotation_sample = Some y
       ∧ rightRotate y = Some rotation_sample.
Proof.
  eexists. split; [reflexivity|].
  apply (rotations_inverse rotation_sample).
  - reflexivity.
  - reflexivity.
  - intros r [= <-]. reflexivity.
Defined.

Lemma pow2_half_step (h a b : Z) :
  0 ≤ a → 0 ≤ b → h = 1 + Z.max a b → -1 ≤ a - b ≤ 1 →
  2 ^ (h / 2) ≤ 2 ^ (a / 2) + 2 ^ (b / 2).
Proof.
  intros Ha Hb -> Hbal.
  assert (0 < 2 ^ (a / 2)) by (apply Z.pow_pos_nonneg; [lia|]; by apply Z.div_pos).
  assert (0 < 2 ^ (b / 2)) by (apply Z.pow_pos_nonneg; [lia|]; by apply Z.div_pos).
  destruct (decide (Z.max a b = 0)) as [E|E].
  - rewrite E. change ((1 + 0) / 2) with 0. simpl. lia.
  - set (m := Z.min a b).
    assert (2 ^ (m / 2) ≤ 2 ^ (a / 2)).
    { apply Z.pow_le_mono_r; [lia|]. apply Z.div_le_mono; lia. }
    assert (2 ^ (m / 2) ≤ 2 ^ (b / 2)).
    { apply Z.pow_le_mono_r; [lia|]. apply Z.div_le_mono; lia. }
    assert (2 ^ ((1 + Z.max a b) / 2) ≤ 2 ^ (m / 2 + 1)).
    { apply Z.pow_le_mono_r; [lia|].
      replace (m / 2 + 1) with ((m + 1 * 2) / 2) by (rewrite Z.div_add; lia).
      apply Z.div_le_mono; lia. }
    rewrite Z.pow_add_r in * by (try apply Z.div_pos; lia). lia.
Qed.

Lemma avl_size_bound t :
  avl t → 2 ^ (getHeight t / 2) ≤ Z.of_nat (length (inorder t)) + 1.
Proof.
  induction t as [|k l IHl r IHr h]; simpl; [done|].
  intros (Hl & Hr & Hh & Hb). specialize (IHl Hl). specialize (IHr Hr).
  pose proof (avl_height_nonneg l Hl). pose proof (avl_height_nonneg r Hr).
  pose proof (pow2_half_step h (getHeight l) (getHeight r)).
  rewrite length_app. simpl. lia.
Qed.

(** X4: a dictionary built from the empty one holds each distinct word of
    the sequence exactly once, and is shallow: two to the power of half its
    height, measured on the shape, is at most the number of words it holds
    plus one.  The descent of [searchAVL] and [insertAVL] is therefore
    logarithmic in the number of words. *)
Theorem build_height_logarithmic (words : list str) :
  ∃ t, build words = Some t
       ∧ inorder t ≡ₚ remove_dups words
       ∧ 2 ^ (Z.of_nat (tree_height t) / 2) ≤ Z.of_nat (length (inorder t)) + 1.
Proof.
  destruct (build_ok words) as (t & Ht & Havl & Hs & Hin).
  exists t. split; [done|]. split.
  - apply NoDup_Permutation; [by apply sorted_NoDup|apply NoDup_remove_dups|].
    intros w. by rewrite Hin, elem_of_remove_dups.
  - rewrite <- avl_tree_height by done. by apply avl_size_bound.
Qed.

(** ** The pattern matcher *)

Section MatcherExtras.

Local Open Scope nat_scope.
Import KMPStringMatcher.

(** A border, read on the strings themselves: the prefix of length [b] is
    the suffix of length [b] of the prefix of length [k]. *)
Lemma border_take_drop (p : str) k b :
  k ≤ length p → b ≤ k →
  border p k b ↔ take b p = drop (k - b) (take k p).
Proof.
  intros Hk Hb. unfold border, agree. split.
  - intros [_ Hag]. apply list_eq. intros t.
    rewrite lookup_drop. destruct (decide (t < b)) as [Ht|Ht].
    + rewrite !lookup_take_lt by lia. symmetry. by apply Hag.
    + by rewrite !lookup_take_ge by lia.
  - intros Heq. split; [done|]. intros t Ht.
    assert (take b p !! t = drop (k - b) (take k p) !! t) as E
      by by rewrite Heq.
    rewrite lookup_drop, !lookup_take_lt in E by lia. done.
Qed.

Lemma occurs_at_split (text p : str) i :
  occurs_at text p i ↔ ∃ pre post, text = pre ++ p ++ post ∧ length pre = i.
Proof.
  unfold occurs_at. split.
  - intros [Hle Heq]. exists (take i text), (drop (i + length p) text). split.
    + rewrite <- Heq at 1. rewrite <- drop_drop, take_drop.
      by rewrite take_drop.
    + rewrite length_take. lia.
  - intros (pre & post & -> & <-). split.
    + rewrite !length_app. lia.
    + by rewrite drop_app_length, take_app_length.
Qed.

End MatcherExtras.

(** X5: [computeLPS] returns, for every pattern and enough fuel for its
    loop, a table as long as the pattern whose entry [i] is the length of the
    longest proper prefix of [pattern[0..i]] that is also a suffix of it: it
    is at most [i], it is such a prefix, and no longer one exists.  The table
    of the empty pattern is empty. *)
Theorem computeLPS_table (fuel : nat) (pattern : str) :
  (2 * length pattern < fuel)%nat →
  ∃ lps, KMPStringMatcher.computeLPS fuel pattern = Some lps
    ∧ length lps = length pattern
    ∧ ∀ i, (i < length pattern)%nat →
        ∃ v, lps !! i = Some v ∧ (v ≤ i)%nat
          ∧ take v pattern = drop (S i - v) (take (S i) pattern)
          ∧ ∀ b, (b ≤ i)%nat →
              take b pattern = drop (S i - b) (take (S i) pattern) →
              (b ≤ v)%nat.
Proof.
  intros Hfuel. destruct (decide (length pattern = 0)%nat) as [Hm|Hm].
  - apply length_zero_iff_nil in Hm as ->. destruct fuel as [|fuel]; [simpl in *; lia|].
    exists []. split; [done|]. split; [done|]. simpl. lia.
  - destruct (computeLPS_correct pattern fuel) as (lps & Hlps & Hlen & Htab);
      [lia..|].
    exists lps. split; [done|]. split; [done|]. intros i Hi.
    destruct (Htab i Hi) as (v & Hv & Hvlt & Hborder & Hmax).
    exists v. split; [done|]. split; [lia|]. split.
    + apply border_take_drop; [lia..|done].
    + intros b Hb Heq. apply Hmax; [lia|].
      apply border_take_drop; [lia..|done].
Qed.

Lemma computeLPS_table_witness :
  KMPStringMatcher.computeLPS 15 (Str.of_string "aabaaab")
  = Some [0; 1; 0; 1; 2; 2; 3]%nat.
Proof.
  destruct (computeLPS_table 15 (Str.of_string "aabaaab")) as (lps & H & _).
  - vm_compute. lia.
  - rewrite H. f_equal. vm_compute in H. by injection H as <-.
Defined.

(** X6: for a non-empty pattern and enough fuel, [containsPattern] says
    whether the pattern is a substring of the text; a pattern longer than the
    text has no occurrence, and a text searched for itself has the single
    occurrence 0. *)
Theorem containsPattern_substring (fuel : nat) (text pattern : str) :
  pattern ≠ [] → (2 * (length text + length pattern) < fuel)%nat →
  (KMPStringMatcher.containsPattern fuel text pattern = Some true
   ↔ ∃ pre post, text = pre ++ pattern ++ post)
  ∧ (KMPStringMatcher.containsPattern fuel text pattern = Some false
     ↔ ¬ ∃ pre post, text = pre ++ pattern ++ post)
  ∧ ((length text < length pattern)%nat →
     KMPStringMatcher.findPatternOccurrences fuel text pattern = Some [])
  ∧ (text = pattern →
     KMPStringMatcher.findPatternOccurrences fuel text pattern = Some [0]).
Proof.
  intros Hne Hfuel.
  assert ((∃ pre post, text = pre ++ pattern ++ post)
          ↔ occurrences text pattern ≠ []) as Hsub.
  { split.
    - intros (pre & post & Heq) E.
      assert (length pre ∈ occurrences text pattern) as Hin.
      { apply elem_of_occurrences, occurs_at_split. eauto. }
      rewrite E in Hin. by apply elem_of_nil in Hin.
    - destruct (occurrences text pattern) as [|i l] eqn:E; [done|]. intros _.
      assert (occurs_at text pattern i) as Hocc.
      { apply elem_of_occurrences. rewrite E. by left. }
      apply occurs_at_split in Hocc as (pre & post & Heq & _). eauto. }
  rewrite containsPattern_nonempty, findPatternOccurrences_nonempty by done.
  split_and!.
  - rewrite Hsub. split.
    + intros [= H]. by apply bool_decide_eq_true in H.
    + intros H. by rewrite bool_decide_eq_true_2.
  - rewrite Hsub. split.
    + intros [= H]. by apply bool_decide_eq_false in H.
    + intros H. by rewrite bool_decide_eq_false_2.
  - intros Hlen. destruct (occurrences text pattern) as [|i l] eqn:E; [done|].
    assert (occurs_at text pattern i) as [Hle _].
    { apply elem_of_occurrences. rewrite E. by left. }
    lia.
  - intros ->. f_equal.
    assert (occurrences pattern pattern = [0%nat]) as ->; [|done].
    apply (StronglySorted_unique_strong lt).
    + intros x y _ _ ? ?. lia.
    + apply occ_below_sorted.
    + repeat constructor.
    + apply NoDup_Permutation.
      * unfold occurrences, occ_below. apply NoDup_filter, NoDup_seq.
      * apply NoDup_singleton.
      * intros i. rewrite elem_of_occurrences, list_elem_of_singleton.
        unfold occurs_at. split.
        -- intros [Hle _]. lia.
        -- intros ->. split; [simpl; lia|]. simpl. apply take_ge. lia.
Qed.

Lemma containsPattern_substring_witness :
  KMPStringMatcher.containsPattern 100
    (Str.of_string "claim your free money now") (Str.of_string "free money")
  = Some true.
Proof.
  apply (containsPattern_substring 100
           (Str.of_string "claim your free money now")
           (Str.of_string "free money")).
  - discriminate.
  - vm_compute. lia.
  - exists (Str.of_string "claim your "), (Str.of_string " now"). reflexivity.
Defined.

(** ** The trust graph *)

Section GraphExtras.

Lemma neighbours_run_ops ops u :
  neighbours (run_ops ops) u = ops ≫= appended_to u.
Proof.
  unfold run_ops. induction ops as [|op ops IH] using rev_ind; [done|].
  rewrite foldl_app, bind_app. simpl. rewrite app_nil_r.
  destruct op as [a b|v]; simpl.
  - rewrite neighbours_addEdge, IH. done.
  - rewrite neighbours_degree, IH. by rewrite app_nil_r.
Qed.

Lemma count_of_app v l1 l2 :
  count_of v (l1 ++ l2) = (count_of v l1 + count_of v l2)%nat.
Proof. unfold count_of. by rewrite filter_app, length_app. Qed.

Lemma count_of_appended u v op :
  count_of v (appended_to u op) = count_of u (appended_to v op).
Proof.
  destruct op as [a b|w]; [|done]. unfold appended_to.
  rewrite !count_of_app. unfold count_of.
  repeat case_decide; subst; rewrite ?filter_cons, ?filter_nil;
    repeat case_decide; simpl; try done; try lia.
Qed.

Lemma count_of_pos v l : v ∈ l ↔ (0 < count_of v l)%nat.
Proof.
  unfold count_of. induction l as [|x l IH]; simpl.
  - rewrite elem_of_nil. simpl. lia.
  - rewrite elem_of_cons, filter_cons. case_decide; simpl.
    + subst. split; [lia|auto].
    + rewrite IH. split; [intros [?|?]; [congruence|done]|auto].
Qed.

Lemma total_degree_insert (m : gmap str (list str)) u new :
  (total_degree (mkGraph (<[u := new]> m)) + length (default [] (m !! u))
   = total_degree (mkGraph m) + length new)%nat.
Proof.
  unfold total_degree. simpl.
  assert (∀ m' : gmap str (list str), m' !! u = None → ∀ x,
            map_fold (λ _ vec acc, (length vec + acc)%nat) 0%nat (<[u := x]> m')
            = (length x + map_fold (λ _ vec acc, (length vec + acc)%nat)
                            0%nat m')%nat) as Hins.
  { intros m' Hm' x.
    rewrite (map_fold_insert_L (λ _ (vec : list str) acc, (length vec + acc)%nat));
      [done| |done].
    intros. lia. }
  destruct (m !! u) as [old|] eqn:E; simpl.
  - rewrite <- (insert_delete_eq m u new).
    pose proof (Hins (delete u m) (lookup_delete_eq m u)) as Hd.
    rewrite (Hd new). specialize (Hd old).
    rewrite (insert_delete_id m u old E) in Hd. lia.
  - rewrite Hins by done. lia.
Qed.

Lemma total_degree_push_back m u v :
  total_degree (mkGraph (push_back_at m u v)) = S (total_degree (mkGraph m)).
Proof.
  unfold push_back_at, subscript. destruct (m !! u) as [old|] eqn:E.
  - pose proof (total_degree_insert m u (old ++ [v])) as H.
    rewrite E, length_app in H. simpl in H. lia.
  - pose proof (total_degree_insert m u []) as H1.
    pose proof (total_degree_insert (<[u := []]> m) u ([] ++ [v])) as H2.
    rewrite E in H1. rewrite lookup_insert_eq in H2. simpl in *. lia.
Qed.

Lemma total_degree_degree g u : total_degree (degree g u).2 = total_degree g.
Proof.
  unfold degree, subscript. destruct g as [m]. simpl.
  destruct (m !! u) as [old|] eqn:E; simpl; [done|].
  pose proof (total_degree_insert m u []) as H. rewrite E in H. simpl in H. lia.
Qed.

End GraphExtras.

(** X7: after any run of [addEdge] and [degree] calls from the empty graph,
    the adjacency list of a user holds, in the order of the calls, the other
    end of each edge added at that user (a self-loop twice, an edge added
    twice, twice); [degree] calls leave no trace in it. *)
Theorem adjacency_in_call_order (ops : list graph_op) (u : str) :
  default [] (adj (run_ops ops) !! u) = ops ≫= appended_to u
  ∧ (degree (run_ops ops) u).1 = Z.of_nat (length (ops ≫= appended_to u)).
Proof.
  pose proof (neighbours_run_ops ops u) as H. unfold neighbours in H.
  split; [done|]. rewrite degree_value. unfold neighbours. by rewrite H.
Qed.

(** X8: the graph stays undirected: after any run of calls from the empty
    graph, [v] is listed among the neighbours of [u] as many times as [u] is
    among those of [v], and so is a neighbour of [u] exactly when [u] is one
    of [v]. *)
Theorem adjacency_symmetric (ops : list graph_op) (u v : str) :
  count_of v (neighbours (run_ops ops) u)
  = count_of u (neighbours (run_ops ops) v)
  ∧ (v ∈ neighbours (run_ops ops) u ↔ u ∈ neighbours (run_ops ops) v).
Proof.
  assert (count_of v (neighbours (run_ops ops) u)
          = count_of u (neighbours (run_ops ops) v)) as H.
  { rewrite !neighbours_run_ops.
    induction ops as [|op ops IH]; [done|]. rewrite !bind_cons.
    by rewrite !count_of_app, IH, count_of_appended. }
  split; [done|]. by rewrite !count_of_pos, H.
Qed.

(** X9: the degrees add up to twice the number of [addEdge] calls: after any
    run of calls from the empty graph, the lengths of all adjacency lists of
    the map sum to two per edge added, [degree] queries adding nothing. *)
Theorem degrees_sum_to_twice_edges (ops : list graph_op) :
  total_degree (run_ops ops) = (2 * length (filter is_addEdge ops))%nat.
Proof.
  unfold run_ops. induction ops as [|op ops IH] using rev_ind; [done|].
  rewrite foldl_app, filter_app, length_app. cbn [foldl].
  destruct op as [a b|w]; cbn [run_op].
  - rewrite filter_cons_True by done. cbn [filter length].
    unfold addEdge. rewrite !total_degree_push_back.
    destruct (foldl run_op emptyGraph ops) as [m]. simpl in *. lia.
  - rewrite filter_cons_False by (simpl; auto).
    rewrite total_degree_degree. rewrite filter_nil. simpl. lia.
Qed.

(** ** The scoring of one post *)

Section ScoringExtras.

Lemma word_loop_grows dict user fuel : ∀ ss sev out sev' out',
  word_loop fuel dict user ss sev out = Some (sev', out') → sev ≤ sev'.
Proof.
  induction fuel as [|fuel IH]; intros ss sev out sev' out'; simpl; [done|].
  destruct (extract ss) as [[w rest]|].
  - destruct (searchAVL dict (map tolower w)); intros H%IH; lia.
  - intros [= -> _]. lia.
Qed.

Lemma phrase_loop_grows text user fuel : ∀ phrases sev out sev' out',
  phrase_loop fuel text user phrases sev out = Some (sev', out') → sev ≤ sev'.
Proof.
  induction phrases as [|ph phrases IH]; intros sev out sev' out'; simpl.
  - intros [= -> _]. lia.
  - destruct (KMPStringMatcher.containsPattern fuel text ph) as [[]|];
      cbn [mbind option_bind]; [intros H%IH; lia|intros H%IH; lia|done].
Qed.

(** Whatever the dictionary and the fuel, a finished analysis has added the
    two penalties of the author to a non-negative count of hits. *)
Lemma analyze_post_shape fuel dict phrases userReputation g user content a :
  analyze_post fuel dict phrases userReputation g (user, content) = Some a →
  ∃ h, 0 ≤ h
       ∧ an_severity a
         = h + bot_penalty g user + reputation_penalty userReputation user
       ∧ an_graph a = (degree g user).2.
Proof.
  unfold analyze_post. cbn [fst snd]. intros H.
  destruct (word_loop _ _ _ _ _ _) as [[sev1 out1]|] eqn:E1; [|done].
  cbn [mbind option_bind] in H.
  destruct (phrase_loop _ _ _ _ _ _) as [[sev2 out2]|] eqn:E2; [|done].
  cbn [mbind option_bind] in H.
  apply word_loop_grows in E1. apply phrase_loop_grows in E2.
  rewrite reputation_of_default in H.
  unfold bot_penalty, reputation_penalty.
  destruct (degree g user) as [deg g'] eqn:Hdeg. cbn [fst snd].
  unfold flag_step in H. exists sev2. split; [lia|].
  destruct (decide (deg = 0)) as [->|Hd];
    [|assert ((deg =? 0) = false) as Ed by lia; rewrite Ed in H];
    (destruct (decide (default 0 (userReputation !! user) < 5)) as [Hr|Hr];
     [assert ((default 0 (userReputation !! user) <? 5) = true) as Er by lia
     |assert ((default 0 (userReputation !! user) <? 5) = false) as Er by lia]);
    rewrite Er in H; cbn [Z.eqb] in H;
    destruct (_ >? 0) in H; injection H as <-; cbn [an_severity an_graph];
    split; first [done|lia].
Qed.

Lemma degree_zero_iff g user :
  (degree g user).1 = 0 ↔ default [] (adj g !! user) = [].
Proof.
  rewrite degree_value. unfold neighbours.
  destruct (default [] (adj g !! user)); simpl; split; try done; lia.
Qed.

Lemma isspace_tolower c : isspace (tolower c) = isspace c.
Proof. by destruct c as [[] [] [] [] [] [] [] []]. Qed.

Lemma tolower_idemp c : tolower (tolower c) = tolower c.
Proof. by destruct c as [[] [] [] [] [] [] [] []]. Qed.

Lemma split_ws_tolower s cur :
  split_ws (map tolower s) (map tolower cur)
  = map (map tolower) (split_ws s cur).
Proof.
  revert cur. induction s as [|c s IH]; intros cur; simpl.
  - by destruct cur.
  - rewrite isspace_tolower. destruct (isspace c).
    + destruct cur; simpl; [apply (IH [])|]. f_equal. apply (IH []).
    + rewrite <- IH. by rewrite map_app.
Qed.

Lemma tokens_tolower s :
  tokens (map tolower s) = map (map tolower) (tokens s).
Proof. apply (split_ws_tolower s []). Qed.

Lemma lowered_fixed (w v : str) :
  w = map tolower v → Forall (λ c, ¬ is_upper c) w.
Proof.
  intros ->. apply Forall_forall. intros c Hc.
  change (map tolower v) with (tolower <$> v) in Hc.
  apply list_elem_of_fmap in Hc as (d & -> & _).
  unfold is_upper. rewrite tolower_idemp. tauto.
Qed.

Lemma occurs_at_elem text p i c : occurs_at text p i → c ∈ p → c ∈ text.
Proof.
  intros [_ Heq] Hc. rewrite <- Heq in Hc.
  by apply subseteq_take, subseteq_drop in Hc.
Qed.

Lemma filter_ext_in {A} (P1 P2 : A → Prop)
    `{!∀ x, Decision (P1 x), !∀ x, Decision (P2 x)} (l : list A) :
  (∀ x, x ∈ l → P1 x ↔ P2 x) → filter P1 l = filter P2 l.
Proof.
  induction l as [|a l IH]; intros Hext; [done|].
  rewrite !filter_cons, IH by (intros x Hx; apply Hext; by right).
  destruct (decide (P1 a)) as [Ha|Ha].
  - by rewrite decide_True by (apply Hext; [by left|done]).
  - rewrite decide_False; [done|]. intros Hb. apply Ha, Hext; [by left|done].
Qed.

Lemma word_hits_upper words content w :
  Exists is_upper w → word_hits (w :: words) content = word_hits words content.
Proof.
  intros Hup. unfold word_hits. apply filter_ext_in.
  intros x Hx. rewrite elem_of_cons. split; [|auto]. intros [->|?]; [|done].
  exfalso. change (map (map tolower) (tokens content))
    with (map tolower <$> tokens content) in Hx.
  apply list_elem_of_fmap in Hx as (tok & Hw & _).
  apply lowered_fixed in Hw. apply Exists_exists in Hup as (c & Hc & Hupc).
  by apply (proj1 (Forall_forall _ _) Hw c).
Qed.

Lemma phrase_hits_upper phrases content ph :
  Exists is_upper ph →
  phrase_hits (ph :: phrases) content = phrase_hits phrases content.
Proof.
  intros Hup. unfold phrase_hits. rewrite filter_cons_False; [done|].
  intros [Hne Hocc]. destruct (occurrences _ ph) as [|i l] eqn:E; [done|].
  assert (occurs_at (map tolower content) ph i) as Hi.
  { apply elem_of_occurrences. rewrite E. by left. }
  apply Exists_exists in Hup as (c & Hc & Hupc).
  pose proof (occurs_at_elem _ _ _ c Hi Hc) as Hin.
  pose proof (lowered_fixed _ content eq_refl) as Hlow.
  by apply (proj1 (Forall_forall _ _) Hlow c).
Qed.

End ScoringExtras.

Lemma is_upper_iff c : is_upper c ↔ (65 ≤ N_of_ascii c ≤ 90)%N.
Proof.
  unfold is_upper, tolower.
  destruct (65 <=? N_of_ascii c)%N eqn:E1; destruct (N_of_ascii c <=? 90)%N eqn:E2;
    simpl; try (apply N.leb_gt in E1); try (apply N.leb_gt in E2);
    try (apply N.leb_le in E1); try (apply N.leb_le in E2);
    try (split; [done|lia]).
  split; [lia|]. intros _ Heq.
  assert (N_of_ascii (ascii_of_N (N_of_ascii c + 32)) = N_of_ascii c) as H
    by by rewrite Heq.
  rewrite N_ascii_embedding in H by lia. lia.
Qed.

Lemma occurrences_empty_text ph : ph ≠ [] → occurrences [] ph = [].
Proof.
  intros Hne. destruct (occurrences [] ph) as [|i l] eqn:E; [done|].
  assert (occurs_at [] ph i) as [Hle _].
  { apply elem_of_occurrences. rewrite E. by left. }
  destruct ph; [done|]. simpl in Hle. lia.
Qed.

Lemma phrase_hits_empty_content phrases : phrase_hits phrases [] = [].
Proof.
  unfold phrase_hits. induction phrases as [|ph phrases IH]; [done|].
  rewrite filter_cons_False; [done|]. intros [Hne Hocc].
  by apply Hocc, occurrences_empty_text.
Qed.


(** What a finished analysis records, whatever the dictionary and the fuel. *)
Lemma analysis_fields (fuel : nat) (dict : AVLNode) (phrases : list str)
    (userReputation : gmap str Z) (g : Graph) (user posted : str)
    (a : analysis) :
  analyze_post fuel dict phrases userReputation g (user, posted) = Some a →
  0 ≤ an_severity a
  ∧ (an_flagged a = None ↔ an_severity a = 0)
  ∧ (∀ fp, an_flagged a = Some fp →
       username fp = user ∧ content fp = posted
       ∧ severity fp = an_severity a ∧ 1 ≤ severity fp
       ∧ priority fp = getPriority (severity fp)
       ∧ (isBot fp = true ↔ default [] (adj g !! user) = [])
       ∧ reputation fp = default 0 (userReputation !! user)).
Proof.
  intros Ha.
  destruct (analyze_post_shape _ _ _ _ _ _ _ _ Ha) as (h & Hh & Hsev & _).
  pose proof (analyze_post_flagged _ _ _ _ _ _ _ Ha) as Hf. cbn [fst snd] in Hf.
  assert (0 ≤ an_severity a) as Hnn.
  { rewrite Hsev. unfold bot_penalty, reputation_penalty.
    repeat case_decide; lia. }
  split; [done|].
  destruct (an_severity a >? 0) eqn:Hpos; rewrite Hf.
  - split; [split; [done|lia]|]. intros fp [= <-]. simpl.
    split_and!; try done; try lia.
    rewrite <- degree_zero_iff. lia.
    apply reputation_of_default.
  - split; [split; [lia|done]|]. done.
Qed.

(** X10: what a flagged post records.  Whatever the dictionary and the fuel,
    a finished analysis has a severity that is never negative, flags the post
    exactly when the severity is not 0, and the [FlaggedPost] it builds holds
    the author, the content as posted (not the lower-cased copy), the
    severity (at least 1), the priority of that severity, the bot flag (set
    exactly when the author has no neighbour) and the author's reputation,
    0 when the table has none. *)
Theorem flagged_post_fields (fuel : nat) (dict : AVLNode) (phrases : list str)
    (userReputation : gmap str Z) (g : Graph) (user posted : str)
    (a : analysis) :
  analyze_post fuel dict phrases userReputation g (user, posted) = Some a →
  0 ≤ an_severity a
  ∧ (an_flagged a = None ↔ an_severity a = 0)
  ∧ (∀ fp, an_flagged a = Some fp →
       username fp = user ∧ content fp = posted
       ∧ severity fp = an_severity a ∧ 1 ≤ severity fp
       ∧ priority fp = getPriority (severity fp)
       ∧ (isBot fp = true ↔ default [] (adj g !! user) = [])
       ∧ reputation fp = default 0 (userReputation !! user)).
Proof. apply analysis_fields. Qed.

Lemma flagged_post_fields_witness :
  ∃ a fp,
    analyze_post 100 Null demo_phrases demo_reputation demo_graph
      (Str.of_string "Dave", Str.of_string "Click HERE") = Some a
    ∧ an_flagged a = Some fp
    ∧ content fp = Str.of_string "Click HERE"
    ∧ reputation fp = 0.
Proof.
  eexists. eexists. split; [by vm_compute|]. split; [reflexivity|].
  edestruct (flagged_post_fields 100 Null demo_phrases demo_reputation
               demo_graph (Str.of_string "Dave") (Str.of_string "Click HERE"))
    as (_ & _ & H); [by vm_compute|].
  edestruct H as (_ & Hc & _ & _ & _ & _ & Hr); [reflexivity|].
  split; [exact Hc|exact Hr].
Defined.



(** X12: a post goes unflagged exactly when no signal fires.  On a
    dictionary built from a word list and with enough fuel, the analysis
    flags nothing if and only if no token is a banned word, no banned phrase
    occurs, the author has a neighbour and the author's reputation is at
    least 5.  For an empty content only the author counts: the severity is
    the bot penalty plus the reputation penalty. *)
Theorem unflagged_iff_no_signal (fuel : nat) (words phrases : list str)
    (userReputation : gmap str Z) (g : Graph) (user posted : str) :
  (length posted < fuel)%nat →
  (∀ ph, ph ∈ phrases → (2 * (length posted + length ph) < fuel)%nat) →
  ∃ dict a,
    build words = Some dict
    ∧ analyze_post fuel dict phrases userReputation g (user, posted) = Some a
    ∧ (an_flagged a = None
       ↔ word_hits words posted = [] ∧ phrase_hits phrases posted = []
         ∧ default [] (adj g !! user) ≠ []
         ∧ 5 ≤ default 0 (userReputation !! user))
    ∧ (posted = [] →
       an_severity a
       = (if decide (default [] (adj g !! user) = []) then 2 else 0)
         + (if decide (default 0 (userReputation !! user) < 5) then 1 else 0)).
Proof.
  intros Hfuel Hph.
  destruct (build_ok words) as (dict & Hdict & _ & Hs & Hin).
  assert (∀ w, searchAVL dict w = true ↔ w ∈ words) as Hsearch.
  { intros w. by rewrite (searchAVL_inorder dict w Hs), Hin. }
  destruct (analyze_post_eq fuel dict words phrases userReputation g user
              posted Hsearch Hfuel Hph) as (a & Ha & Hsev & _ & _).
  destruct (analysis_fields _ _ _ _ _ _ _ _ Ha) as (_ & Hnone & _).
  exists dict, a. split; [done|]. split; [done|].
  unfold severity_sum, bot_penalty, reputation_penalty in Hsev.
  split.
  - rewrite Hnone, Hsev, <- degree_zero_iff.
    destruct (word_hits words posted); destruct (phrase_hits phrases posted);
      repeat case_decide; simpl length; split; try lia;
      try (intros (? & ? & ? & ?); done);
      try (intros ?; split_and!; try done; lia).
  - intros ->. rewrite Hsev, phrase_hits_empty_content.
    change (word_hits words []) with (@nil str). simpl length.
    repeat case_decide; try lia; exfalso;
      match goal with
      | H1 : (degree _ _).1 = 0, H2 : default [] _ ≠ [] |- _ =>
          by apply H2, degree_zero_iff
      | H1 : (degree _ _).1 ≠ 0, H2 : default [] _ = [] |- _ =>
          by apply H1, degree_zero_iff
      end.
Qed.

Lemma unflagged_iff_no_signal_witness :
  ∃ dict a,
    build demo_words = Some dict
    ∧ analyze_post 100 dict demo_phrases demo_reputation demo_graph
        (Str.of_string "alice", []) = Some a
    ∧ an_severity a = 0.
Proof.
  destruct (unflagged_iff_no_signal 100 demo_words demo_phrases demo_reputation
              demo_graph (Str.of_string "alice") [])
    as (dict & a & Hd & Ha & _ & Hs).
  - simpl. lia.
  - intros ph Hph.
    repeat (apply elem_of_cons in Hph as [->|Hph]; [vm_compute; lia|]).
    by apply elem_of_nil in Hph.
  - exists dict, a. split_and!; [done..|]. rewrite Hs by done. by vm_compute.
Defined.

(** X13: the scoring does not see the case of the letters of the content.
    Two contents that are equal once lower-cased get, from the same author
    and on the same dictionary, phrases, table and graph, the same severity;
    each flagged post keeps its own content as posted. *)
Theorem scoring_ignores_case (fuel : nat) (words phrases : list str)
    (userReputation : gmap str Z) (g : Graph) (user c1 c2 : str) :
  map tolower c1 = map tolower c2 →
  (length c1 < fuel)%nat →
  (∀ ph, ph ∈ phrases → (2 * (length c1 + length ph) < fuel)%nat) →
  ∃ dict a1 a2,
    build words = Some dict
    ∧ analyze_post fuel dict phrases userReputation g (user, c1) = Some a1
    ∧ analyze_post fuel dict phrases userReputation g (user, c2) = Some a2
    ∧ an_severity a1 = an_severity a2
    ∧ (∀ fp, an_flagged a1 = Some fp → content fp = c1)
    ∧ (∀ fp, an_flagged a2 = Some fp → content fp = c2).
Proof.
  intros Hlow Hfuel Hph.
  assert (length c2 = length c1) as Hlen.
  { by rewrite <- (length_map tolower c2), <- Hlow, length_map. }
  destruct (build_ok words) as (dict & Hdict & _ & Hs & Hin).
  assert (∀ w, searchAVL dict w = true ↔ w ∈ words) as Hsearch.
  { intros w. by rewrite (searchAVL_inorder dict w Hs), Hin. }
  destruct (analyze_post_eq fuel dict words phrases userReputation g user
              c1 Hsearch Hfuel Hph) as (a1 & Ha1 & Hsev1 & _ & _).
  destruct (analyze_post_eq fuel dict words phrases userReputation g user
              c2 Hsearch) as (a2 & Ha2 & Hsev2 & _ & _).
  { by rewrite Hlen. }
  { intros ph ?. rewrite Hlen. auto. }
  exists dict, a1, a2. split_and!; try done.
  - rewrite Hsev1, Hsev2. unfold severity_sum, word_hits, phrase_hits.
    by rewrite <- !tokens_tolower, Hlow.
  - intros fp Hfp.
    by destruct (analysis_fields _ _ _ _ _ _ _ _ Ha1) as (_ & _ & H);
      destruct (H fp Hfp) as (_ & ? & _).
  - intros fp Hfp.
    by destruct (analysis_fields _ _ _ _ _ _ _ _ Ha2) as (_ & _ & H);
      destruct (H fp Hfp) as (_ & ? & _).
Qed.

Lemma scoring_ignores_case_witness :
  ∃ dict a1 a2,
    build demo_words = Some dict
    ∧ analyze_post 100 dict demo_phrases demo_reputation demo_graph
        (Str.of_string "bob", Str.of_string "This Is A SCAM") = Some a1
    ∧ analyze_post 100 dict demo_phrases demo_reputation demo_graph
        (Str.of_string "bob", Str.of_string "this is a scam") = Some a2
    ∧ an_severity a1 = an_severity a2.
Proof.
  destruct (scoring_ignores_case 100 demo_words demo_phrases demo_reputation
              demo_graph (Str.of_string "bob")
              (Str.of_string "This Is A SCAM") (Str.of_string "this is a scam"))
    as (dict & a1 & a2 & Hd & H1 & H2 & Hs & _).
  - by vm_compute.
  - vm_compute. lia.
  - intros ph Hph.
    repeat (apply elem_of_cons in Hph as [->|Hph]; [vm_compute; lia|]).
    by apply elem_of_nil in Hph.
  - by exists dict, a1, a2.
Defined.

(** X14: a banned word or phrase spelt with an upper-case letter is dead.
    Tokens and content are lower-cased before they are looked up, but the
    words and phrases are stored as given: adding to the word list, or to the
    phrase list, an entry that has a letter from 'A' to 'Z' changes the
    severity of no post. *)
Theorem upper_case_entry_never_matches (fuel : nat) (words phrases : list str)
    (userReputation : gmap str Z) (g : Graph) (user posted banned : str) :
  Exists (λ c, (65 ≤ N_of_ascii c ≤ 90)%N) banned →
  (length posted < fuel)%nat →
  (∀ ph, ph ∈ banned :: phrases →
         (2 * (length posted + length ph) < fuel)%nat) →
  ∃ d1 d2 a1 a2 a3,
    build words = Some d1 ∧ build (banned :: words) = Some d2
    ∧ analyze_post fuel d1 phrases userReputation g (user, posted) = Some a1
    ∧ analyze_post fuel d2 phrases userReputation g (user, posted) = Some a2
    ∧ analyze_post fuel d1 (banned :: phrases) userReputation g (user, posted)
      = Some a3
    ∧ an_severity a2 = an_severity a1
    ∧ an_severity a3 = an_severity a1.
Proof.
  intros Hup Hfuel Hph.
  assert (Exists is_upper banned) as Hup'.
  { eapply Exists_impl; [exact Hup|]. intros c. apply is_upper_iff. }
  destruct (build_ok words) as (d1 & Hd1 & _ & Hs1 & Hin1).
  destruct (build_ok (banned :: words)) as (d2 & Hd2 & _ & Hs2 & Hin2).
  assert (∀ w, searchAVL d1 w = true ↔ w ∈ words) as Hsearch1.
  { intros w. by rewrite (searchAVL_inorder d1 w Hs1), Hin1. }
  assert (∀ w, searchAVL d2 w = true ↔ w ∈ banned :: words) as Hsearch2.
  { intros w. by rewrite (searchAVL_inorder d2 w Hs2), Hin2. }
  assert (∀ ph, ph ∈ phrases → (2 * (length posted + length ph) < fuel)%nat)
    as Hph' by (intros ph ?; apply Hph; by right).
  destruct (analyze_post_eq fuel d1 words phrases userReputation g user
              posted Hsearch1 Hfuel Hph') as (a1 & Ha1 & Hsev1 & _ & _).
  destruct (analyze_post_eq fuel d2 (banned :: words) phrases userReputation g
              user posted Hsearch2 Hfuel Hph') as (a2 & Ha2 & Hsev2 & _ & _).
  destruct (analyze_post_eq fuel d1 words (banned :: phrases) userReputation g
              user posted Hsearch1 Hfuel Hph) as (a3 & Ha3 & Hsev3 & _ & _).
  exists d1, d2, a1, a2, a3. split_and!; try done.
  - rewrite Hsev1, Hsev2. unfold severity_sum. by rewrite word_hits_upper.
  - rewrite Hsev1, Hsev3. unfold severity_sum. by rewrite phrase_hits_upper.
Qed.

Lemma upper_case_entry_never_matches_witness :
  ∃ d2 a2,
    build (Str.of_string "SCAM" :: demo_words) = Some d2
    ∧ analyze_post 100 d2 demo_phrases demo_reputation demo_graph
        (Str.of_string "alice", Str.of_string "SCAM") = Some a2
    ∧ an_severity a2 = 1.
Proof.
  destruct (upper_case_entry_never_matches 100 demo_words demo_phrases
              demo_reputation demo_graph (Str.of_string "alice")
              (Str.of_string "SCAM") (Str.of_string "SCAM"))
    as (d1 & d2 & a1 & a2 & a3 & Hd1 & Hd2 & H1 & H2 & _ & Hs & _).
  - apply Exists_cons_hd. vm_compute. split; discriminate.
  - vm_compute. lia.
  - intros ph Hph.
    repeat (apply elem_of_cons in Hph as [->|Hph]; [vm_compute; lia|]).
    by apply elem_of_nil in Hph.
  - exists d2, a2. split_and!; [done..|]. rewrite Hs.
    vm_compute in Hd1. injection Hd1 as <-. vm_compute in H1.
    injection H1 as <-. reflexivity.
Defined.

Lemma split_ws_length s cur :
  (length (split_ws s cur) ≤ length s + (if cur is [] then 0 else 1))%nat.
Proof.
  revert cur. induction s as [|c s IH]; intros cur; simpl.
  - by destruct cur.
  - destruct (isspace c).
    + destruct cur; simpl; specialize (IH []); simpl in IH; lia.
    + specialize (IH (cur ++ [c])). destruct (cur ++ [c]) eqn:E.
      * by destruct cur.
      * destruct cur; simpl in *; lia.
Qed.

Lemma tokens_length s : (length (tokens s) ≤ length s)%nat.
Proof. pose proof (split_ws_length s []). simpl in *. unfold tokens. lia. Qed.

(** X16: the severity is bounded by the size of the input.  On a dictionary
    built from a word list and with enough fuel, it is at most the number of
    tokens of the content (each token counts at most once), plus two per
    banned phrase (a phrase counts once however often it occurs), plus three
    for the author. *)
Theorem severity_bounded (fuel : nat) (words phrases : list str)
    (userReputation : gmap str Z) (g : Graph) (user posted : str) :
  (length posted < fuel)%nat →
  (∀ ph, ph ∈ phrases → (2 * (length posted + length ph) < fuel)%nat) →
  ∃ dict a,
    build words = Some dict
    ∧ analyze_post fuel dict phrases userReputation g (user, posted) = Some a
    ∧ 0 ≤ an_severity a
      ≤ Z.of_nat (length (tokens posted)) + 2 * Z.of_nat (length phrases) + 3
    ∧ (length (tokens posted) ≤ length posted)%nat.
Proof.
  intros Hfuel Hph.
  destruct (build_ok words) as (dict & Hdict & _ & Hs & Hin).
  assert (∀ w, searchAVL dict w = true ↔ w ∈ words) as Hsearch.
  { intros w. by rewrite (searchAVL_inorder dict w Hs), Hin. }
  destruct (analyze_post_eq fuel dict words phrases userReputation g user
              posted Hsearch Hfuel Hph) as (a & Ha & Hsev & _ & _).
  exists dict, a. split; [done|]. split; [done|]. split.
  - rewrite Hsev. apply severity_sum_bounds.
  - apply tokens_length.
Qed.

Lemma severity_bounded_witness :
  ∃ dict a,
    build demo_words = Some dict
    ∧ analyze_post 100 dict demo_phrases demo_reputation demo_graph
        (Str.of_string "bob", Str.of_string "scam scam scam") = Some a
    ∧ 0 ≤ an_severity a ≤ 3 + 2 * 4 + 3.
Proof.
  destruct (severity_bounded 100 demo_words demo_phrases demo_reputation
              demo_graph (Str.of_string "bob") (Str.of_string "scam scam scam"))
    as (dict & a & Hd & Ha & Hb & _).
  - vm_compute. lia.
  - intros ph Hph.
    repeat (apply elem_of_cons in Hph as [->|Hph]; [vm_compute; lia|]).
    by apply elem_of_nil in Hph.
  - by exists dict, a.
Defined.

(** ** The loop over the posts and the report *)

Section MainLoop.

Variable post_lt : FlaggedPost → FlaggedPost → bool.
Variables (fuel : nat) (dict : AVLNode) (words phrases : list str).
Variables (userReputation : gmap str Z) (g0 : Graph).
Hypothesis dictionary : ∀ w, searchAVL dict w = true ↔ w ∈ words.

Abbreviation covered := (fuel_covers fuel phrases).

Lemma severity_sum_same_degrees g user posted :
  (∀ w, neighbours g w = neighbours g0 w) →
  severity_sum words phrases userReputation g user posted
  = severity_sum words phrases userReputation g0 user posted.
Proof.
  intros Hn. unfold severity_sum, bot_penalty.
  by rewrite !degree_value, Hn.
Qed.

(** One turn of the loop, on a graph that has the degrees of [g0]. *)
Lemma analyze_post_expected g post :
  (∀ w, neighbours g w = neighbours g0 w) → covered post →
  ∃ a, analyze_post fuel dict phrases userReputation g post = Some a
       ∧ (∀ w, neighbours (an_graph a) w = neighbours g0 w)
       ∧ match expected_entry words phrases userReputation g0 post with
         | Some e => an_flagged a = Some e.2 ∧ an_severity a = e.1
         | None => an_flagged a = None
         end.
Proof using dictionary.
  intros Hn [Hlen Hph]. destruct post as [user posted]. cbn [fst snd] in *.
  destruct (analyze_post_eq fuel dict words phrases userReputation g user
              posted dictionary Hlen Hph) as (a & Ha & Hsev & _ & Hg).
  exists a. split; [done|]. split.
  { intros w. by rewrite Hg, neighbours_degree. }
  pose proof (analyze_post_flagged _ _ _ _ _ _ _ Ha) as Hf. cbn [fst snd] in Hf.
  rewrite (severity_sum_same_degrees g user posted Hn) in Hsev.
  unfold expected_entry. cbn [fst snd]. rewrite <- Hsev.
  destruct (decide (0 < an_severity a)) as [Hpos|Hpos].
  - assert ((an_severity a >? 0) = true) as E by lia. rewrite E in Hf.
    split; [|done]. rewrite Hf. cbn [snd]. do 2 f_equal.
    + rewrite !degree_value, Hn.
      destruct (Z.of_nat (length (neighbours g0 user)) =? 0) eqn:E0.
      * by rewrite bool_decide_eq_true_2 by lia.
      * by rewrite bool_decide_eq_false_2 by lia.
    + apply reputation_of_default.
  - assert ((an_severity a >? 0) = false) as E by lia. by rewrite E in Hf.
Qed.

Lemma run_posts_pushed g q out posts g' q' out' :
  run_posts post_lt fuel dict phrases userReputation g q out posts g' q' out' →
  ∀ xs, (∀ w, neighbours g w = neighbours g0 w) → pushed post_lt xs q →
  Forall covered posts →
  pushed post_lt
    (xs ++ omap (expected_entry words phrases userReputation g0) posts) q'
  ∧ (∀ w, neighbours g' w = neighbours g0 w).
Proof using dictionary.
  induction 1 as [g q out|g q out post posts a q1 g' q' out' Ha Hfile _ IH];
    intros xs Hn Hpushed Hcov.
  - simpl. by rewrite app_nil_r.
  - apply Forall_cons in Hcov as [Hpost Hcov].
    destruct (analyze_post_expected g post Hn Hpost) as (a' & Ha' & Hn' & Hexp).
    rewrite Ha in Ha'. injection Ha' as <-.
    cbn [omap list_omap]. unfold file_post in Hfile.
    destruct (expected_entry words phrases userReputation g0 post)
      as [[sev fp]|].
    + destruct Hexp as [Hfp Hsev]. cbn [fst snd] in *.
      rewrite Hfp, Hsev in Hfile.
      destruct (IH (xs ++ [(sev, fp)]) Hn') as [Hp Hg]; [by econstructor|done|].
      split; [|done]. by rewrite <- app_assoc in Hp.
    + rewrite Hexp in Hfile. subst q1. by apply IH.
Qed.

Lemma expected_entry_severity post e :
  expected_entry words phrases userReputation g0 post = Some e →
  severity e.2 = e.1 ∧ 1 ≤ e.1.
Proof.
  unfold expected_entry. case_decide; [|done]. intros [= <-]. simpl. lia.
Qed.

Lemma sorted_map_snd (l : list entry) :
  StronglySorted (λ a b : entry, b.1 ≤ a.1) l →
  Forall (λ e : entry, severity e.2 = e.1) l →
  StronglySorted (λ a b, severity b ≤ severity a) (map snd l).
Proof.
  induction 1 as [|e l Hl IH He]; intros Hall; simpl; [constructor|].
  apply Forall_cons in Hall as [Hse Hall]. constructor; [by apply IH|].
  apply Forall_forall. intros fp Hfp.
  change (map snd l) with (snd <$> l) in Hfp.
  apply list_elem_of_fmap in Hfp as (e' & -> & He').
  rewrite Hse, (proj1 (Forall_forall _ _) Hall e' He').
  by apply (proj1 (Forall_forall _ _) He).
Qed.

Lemma main_report_sound posts report :
  Forall covered posts →
  main_report post_lt fuel dict phrases userReputation g0 posts report →
  report ≡ₚ map snd (omap (expected_entry words phrases userReputation g0) posts)
  ∧ StronglySorted (λ a b, severity b ≤ severity a) report.
Proof using dictionary.
  intros Hcov (g & q & out & drained & Hrun & Hdrain & ->).
  destruct (run_posts_pushed _ _ _ _ _ _ _ Hrun [] (λ _, eq_refl)
              (pushed_nil post_lt) Hcov) as [Hpushed _].
  simpl in Hpushed.
  destruct (pushed_heap post_lt _ _ Hpushed) as [Hheap Hperm].
  destruct (drain_sorted post_lt _ _ Hdrain Hheap) as [Hout Hsorted].
  split.
  - change (map snd drained) with (snd <$> drained).
    change (map snd ?l) with (snd <$> l). by rewrite Hout, Hperm.
  - apply sorted_map_snd; [done|]. apply Forall_forall. intros e He.
    rewrite Hout, Hperm in He. apply list_elem_of_omap in He as (post & _ & He).
    by apply expected_entry_severity in He as [? _].
Qed.

Lemma run_posts_exists posts :
  strict_weak post_lt → Forall covered posts →
  ∀ g q out, (∀ w, neighbours g w = neighbours g0 w) →
  ∃ g' q' out',
    run_posts post_lt fuel dict phrases userReputation g q out posts g' q' out'.
Proof using dictionary.
  intros Hswo. induction 1 as [|post posts Hpost _ IH]; intros g q out Hn.
  - exists g, q, out. constructor.
  - destruct (analyze_post_expected g post Hn Hpost) as (a & Ha & Hn' & _).
    assert (∃ q1, file_post post_lt a q q1) as [q1 Hfile].
    { unfold file_post. destruct (an_flagged a) as [fp|]; [|by exists q].
      eexists. by apply ref_push_ok. }
    destruct (IH (an_graph a) q1 (out ++ an_output a) Hn') as (g' & q' & out' & Hrun).
    exists g', q', out'. by econstructor.
Qed.

Lemma main_report_exists posts :
  strict_weak post_lt → Forall covered posts →
  ∃ report,
    main_report post_lt fuel dict phrases userReputation g0 posts report.
Proof using dictionary.
  intros Hswo Hcov.
  destruct (run_posts_exists posts Hswo Hcov g0 [] [] (λ _, eq_refl))
    as (g & q & out & Hrun).
  exists (map snd (ref_drain post_lt (length q) q)), g, q, out.
  eexists. split; [done|]. split; [|done]. by apply ref_drain_ok.
Qed.

End MainLoop.

(** X15: the report of [main].  On a dictionary built from a word list and
    with fuel for every post, the report printed after the loop holds exactly
    the posts whose severity is positive, each as often as it was posted,
    with the severity, priority, bot flag and reputation computed on the
    graph and table as they were before the loop, and lists them by
    non-increasing severity, whatever order [operator<] gives to equal
    severities.  The loop changes no user's degree.  When [operator<] is a
    strict weak order the run does produce a report. *)
Theorem main_report_correct (post_lt : FlaggedPost → FlaggedPost → bool)
    (fuel : nat) (words phrases : list str) (userReputation : gmap str Z)
    (g : Graph) (posts : list (str * str)) :
  Forall (λ post : str * str,
            (length post.2 < fuel)%nat
            ∧ ∀ ph, ph ∈ phrases →
                    (2 * (length post.2 + length ph) < fuel)%nat) posts →
  ∃ dict,
    build words = Some dict
    ∧ (∀ report,
         main_report post_lt fuel dict phrases userReputation g posts report →
         report ≡ₚ map snd (omap (expected_entry words phrases userReputation g)
                              posts)
         ∧ StronglySorted (λ a b, severity b ≤ severity a) report)
    ∧ (∀ g' q out,
         run_posts post_lt fuel dict phrases userReputation g [] [] posts
           g' q out →
         ∀ w, (degree g' w).1 = (degree g w).1)
    ∧ (strict_weak post_lt →
       ∃ report,
         main_report post_lt fuel dict phrases userReputation g posts report).
Proof.
  intros Hcov.
  destruct (build_ok words) as (dict & Hdict & _ & Hs & Hin).
  assert (∀ w, searchAVL dict w = true ↔ w ∈ words) as Hsearch.
  { intros w. by rewrite (searchAVL_inorder dict w Hs), Hin. }
  exists dict. split; [done|]. split_and!.
  - intros report. by apply (main_report_sound post_lt fuel dict words).
  - intros g' q out Hrun w.
    destruct (run_posts_pushed post_lt fuel dict words phrases userReputation g
                Hsearch _ _ _ _ _ _ _ Hrun [] (λ _, eq_refl)
                (pushed_nil post_lt) Hcov) as [_ Hn].
    by rewrite !degree_value, Hn.
  - intros Hswo. by apply (main_report_exists post_lt fuel dict words).
Qed.

Lemma main_report_correct_witness :
  ∃ dict report,
    build demo_words = Some dict
    ∧ main_report no_tie_break 100 dict demo_phrases demo_reputation demo_graph
        demo_posts report
    ∧ report ≡ₚ map snd demo_entries
    ∧ StronglySorted (λ a b, severity b ≤ severity a) report.
Proof.
  destruct (main_report_correct no_tie_break 100 demo_words demo_phrases
              demo_reputation demo_graph demo_posts)
    as (dict & Hdict & Hsound & _ & Hlive).
  - repeat (constructor; [split; [vm_compute; lia|];
      intros ph Hph;
      repeat (apply elem_of_cons in Hph as [->|Hph]; [vm_compute; lia|]);
      by apply elem_of_nil in Hph|]).
    constructor.
  - destruct (Hlive no_tie_break_strict_weak) as [report Hrep].
    exists dict, report. split; [done|]. split; [done|].
    destruct (Hsound report Hrep) as [Hperm Hsorted]. split; [|done].
    rewrite Hperm. by vm_compute.
Defined.
(** ** The scenario, evaluated *)

Example build_demo_inorder :
  inorder <$> build demo_words
  = Some (map Str.of_string ["fake"; "hate"; "scam"; "spam"]).
Proof. vm_compute. reflexivity. Qed.

Example kmp_aa_aaaa :
  KMPStringMatcher.findPatternOccurrences 20 (Str.of_string "aaaa") (Str.of_string "aa")
  = Some [0; 1; 2].
Proof. vm_compute. reflexivity. Qed.

Example demo_severities :
  (λ p, an_severity <$>
     (t ← build demo_words;
      analyze_post 100 t demo_phrases demo_reputation demo_graph p)) <$> demo_posts
  = [Some 0; Some 2; Some 3; Some 1].
Proof. vm_compute. reflexivity. Qed.


Example build_right_right :
  build (map Str.of_string ["a"; "b"; "c"])
  = Some (Node (Str.of_string "b")
            (Node (Str.of_string "a") Null Null 1)
            (Node (Str.of_string "c") Null Null 1) 2).
Proof. vm_compute. reflexivity. Qed.

Example build_left_right :
  build (map Str.of_string ["c"; "a"; "b"])
  = Some (Node (Str.of_string "b")
            (Node (Str.of_string "a") Null Null 1)
            (Node (Str.of_string "c") Null Null 1) 2).
Proof. vm_compute. reflexivity. Qed.

Example tokens_demo :
  tokens (Str.of_string "  I hate   this ")
  = map Str.of_string ["I"; "hate"; "this"].
Proof. vm_compute. reflexivity. Qed.

Example demo_review_order :
  (λ e : entry, username e.2)
    <$> ref_drain no_tie_break 3 (ref_pushes no_tie_break demo_entries)
  = map Str.of_string ["botuser"; "bob"; "charlie"].
Proof. vm_compute. reflexivity. Qed.
